(** * simple_logger: the duplicate filter, the redacting filter and get_logger

    A shallow embedding of [simple_logger/logger.py].  Python objects that
    the code mutates in place (filters, handlers, loggers, the LOGGERS
    dictionary) live in an explicit store; calls that can raise return an
    outcome that carries the exception.  Strings are [string]: a character
    is a code point below 256. *)

From Stdlib Require Import ZArith Ascii String List Bool Lia DecimalString.
From stdpp Require Import base option list gmap strings.

Open Scope string_scope.
Open Scope list_scope.
Open Scope Z_scope.

(** ** Module constants (logger.py, lines 12-13) *)

Definition SUCCESS : Z := 32.
Definition HASH : Z := 33.

(** Levels of the host [logging] module that the code refers to. *)
Definition NOTSET : Z := 0.
Definition INFO : Z := 20.
Definition WARNING : Z := 30.

(** [str(n)] for a Python int: decimal digits, a leading minus sign. *)
Definition str_of_int (n : Z) : string := NilZero.string_of_int (Z.to_int n).

(** The fields of [logging.LogRecord] that the filters read or write. *)
Record LogRecord := mkRecord {
  module : string;
  levelno : Z;
  msg : string
}.

(** A call on the module-level [LOGGER] made from inside a filter: the
    level and the message of the call. *)
Record SideLog := mkSideLog {
  side_level : Z;
  side_msg : string
}.

Inductive exn := AttributeError | ValueError | OSError.

Inductive outcome (A : Type) :=
| Return (a : A)
| Raise (e : exn).
Arguments Return {A} a.
Arguments Raise {A} e.

(** ** DuplicateFilter (logger.py, lines 16-33) *)

Module DuplicateFilter.

Definition log_key : Type := (string * Z * string)%type.

(** The instance dictionary: both attributes are absent until [filter]
    assigns them. *)
Record t := mk {
  last_log : option log_key;
  repeated_number : option Z
}.

(** [DuplicateFilter()] *)
Definition new : t := {| last_log := None; repeated_number := None |}.

Definition current_log (record : LogRecord) : log_key :=
  (module record, levelno record, msg record).

(** Truth value of [getattr(self, "repeated_number", None)]: [None] and
    [0] are false. *)
Definition truthy (v : option Z) : bool :=
  match v with
  | Some n => negb (n =? 0)
  | None => false
  end.

Definition repeated_message (n : Z) : string :=
  "Last log repeated " +:+ str_of_int n +:+ " times.".

(** What one call of [filter] does: the value returned (or the exception
    raised), the calls made on [LOGGER], and the instance afterwards.

    Here the call on [LOGGER] is listed and nothing comes of it for the
    instance: this is the instance where the records of [LOGGER] do not
    come to it (a filter of a logger other than [LOGGER], or of a handler
    that the records of [LOGGER] do not reach).  [Attached.filter] below
    also runs the call, for an instance that they may come back to. *)
Record result := mkResult {
  ret : outcome bool;
  warnings : list SideLog;
  self' : t
}.

(** Reading [self.repeated_number] raises when the attribute is absent. *)
Definition filter (self : t) (record : LogRecord) : result :=
  let repeated_number_exists := repeated_number self in
  let current := current_log record in
  if negb (bool_decide (Some current = last_log self)) then
    let self1 := {| last_log := Some current;
                    repeated_number := repeated_number self |} in
    if truthy repeated_number_exists then
      match repeated_number self1 with
      | Some n =>
          mkResult (Return true)
                   [mkSideLog WARNING (repeated_message n)]
                   {| last_log := Some current; repeated_number := Some 0 |}
      | None => mkResult (Raise AttributeError) [] self1
      end
    else
      mkResult (Return true) []
               {| last_log := Some current; repeated_number := Some 0 |}
  else if truthy repeated_number_exists then
    match repeated_number self with
    | Some n =>
        mkResult (Return false) []
                 {| last_log := last_log self; repeated_number := Some (n + 1) |}
    | None => mkResult (Raise AttributeError) [] self
    end
  else
    mkResult (Return false) []
             {| last_log := last_log self; repeated_number := Some 1 |}.

(** What an observer of one filter instance sees, in order. *)
Inductive event :=
| Warned (w : SideLog)
| Passed (record : LogRecord)
| Suppressed (record : LogRecord)
| Failed (e : exn).

Definition verdict (record : LogRecord) (r : outcome bool) : event :=
  match r with
  | Return true => Passed record
  | Return false => Suppressed record
  | Raise e => Failed e
  end.

(** The same instance evaluating a sequence of records; an exception ends
    the sequence. *)
Fixpoint run (self : t) (records : list LogRecord) : list event * t :=
  match records with
  | [] => ([], self)
  | record :: rest =>
      let r := filter self record in
      let here := map Warned (warnings r) ++ [verdict record (ret r)] in
      match ret r with
      | Return _ =>
          let '(later, final) := run (self' r) rest in (here ++ later, final)
      | Raise _ => (here, self' r)
      end
  end.

End DuplicateFilter.

(** ** DuplicateFilter where the records of [LOGGER] may come back to it

    [LOGGER.warning(...)] (line 25) is a call into [logging]: it makes a
    record and hands it to the handlers that [LOGGER] reaches, each of
    which asks its filters.  When the instance that makes the call is the
    filter of such a handler (the console handler that [get_logger] puts
    on the root logger when it is given the empty name, [LOGGER]
    propagating to the root), the record
    of [LOGGER] is evaluated by the same instance, inside the call, between
    the assignment of [last_log] (line 23) and that of [repeated_number]
    (line 27). *)

Module Attached.
Import DuplicateFilter.

(** The record that [LOGGER.warning(f"Last log repeated {n} times.")]
    makes: its level is WARNING and its module is that of the calling
    file, logger.py. *)
Definition warning_record (n : Z) : LogRecord :=
  {| module := "logger"; levelno := WARNING; msg := repeated_message n |}.

(** What one call of [filter] does: the value returned, what happened
    during the call (the calls on [LOGGER], and the verdicts on the records
    of [LOGGER] that came back), and the instance afterwards. *)
Record reply := mkReply {
  value : outcome bool;
  trace : list event;
  after : t
}.

(** [filter], lines 17-33.  [reaches] says whether the records of [LOGGER]
    are evaluated by this instance.  The nesting of the calls is bounded by
    [fuel]; [None] is a call that did not come back within it. *)
Fixpoint filter (fuel : nat) (reaches : bool) (self : t) (record : LogRecord)
  : option reply :=
  match fuel with
  | O => None
  | S fuel' =>
      let repeated_number_exists := repeated_number self in
      let current := current_log record in
      if negb (bool_decide (Some current = last_log self)) then
        let self1 := {| last_log := Some current;
                        repeated_number := repeated_number self |} in
        if truthy repeated_number_exists then
          match repeated_number self1 with
          | Some n =>
              let call := Warned (mkSideLog WARNING (repeated_message n)) in
              if reaches then
                match filter fuel' reaches self1 (warning_record n) with
                | Some nested =>
                    match value nested with
                    | Return b =>
                        Some (mkReply (Return true)
                                (call :: trace nested
                                   ++ [verdict (warning_record n) (Return b)])
                                {| last_log := last_log (after nested);
                                   repeated_number := Some 0 |})
                    | Raise e =>
                        Some (mkReply (Raise e) (call :: trace nested)
                                      (after nested))
                    end
                | None => None
                end
              else
                Some (mkReply (Return true) [call]
                              {| last_log := Some current;
                                 repeated_number := Some 0 |})
          | None => Some (mkReply (Raise AttributeError) [] self1)
          end
        else
          Some (mkReply (Return true) []
                        {| last_log := Some current; repeated_number := Some 0 |})
      else if truthy repeated_number_exists then
        match repeated_number self with
        | Some n =>
            Some (mkReply (Return false) []
                          {| last_log := last_log self;
                             repeated_number := Some (n + 1) |})
        | None => Some (mkReply (Raise AttributeError) [] self)
        end
      else
        Some (mkReply (Return false) []
                      {| last_log := last_log self; repeated_number := Some 1 |})
  end.

(** The instance evaluating a sequence of records that it is given, one
    call after the other; an exception ends the sequence. *)
Fixpoint run (fuel : nat) (reaches : bool) (self : t) (records : list LogRecord)
  : option (list event * t) :=
  match records with
  | [] => Some ([], self)
  | record :: rest =>
      match filter fuel reaches self record with
      | Some r =>
          let here := trace r ++ [verdict record (value r)] in
          match value r with
          | Return _ =>
              match run fuel reaches (after r) rest with
              | Some (later, final) => Some (here ++ later, final)
              | None => None
              end
          | Raise _ => Some (here, after r)
          end
      | None => None
      end
  end.

End Attached.

(** ** Text scanning shared by [re.sub] and [str.replace] *)

Definition text : Type := list ascii.

Definition text_of (s : string) : text := list_ascii_of_string s.
Definition string_of (s : text) : string := string_of_list_ascii s.

Module Scan.

Fixpoint take_while (p : ascii -> bool) (s : text) : text :=
  match s with
  | c :: s' => if p c then c :: take_while p s' else []
  | [] => []
  end.

Fixpoint drop_while (p : ascii -> bool) (s : text) : text :=
  match s with
  | c :: s' => if p c then drop_while p s' else s
  | [] => []
  end.

(** [s] with the literal [lit] removed from its front, when it starts
    with it. *)
Fixpoint strip_prefix (lit s : text) : option text :=
  match lit, s with
  | [], _ => Some s
  | a :: lit', c :: s' => if Ascii.eqb a c then strip_prefix lit' s' else None
  | _ :: _, [] => None
  end.

(** The substitution loop of [re.sub] and [str.replace]: the cursor walks
    the string from the left; [matcher] says how many characters a match
    that starts at the cursor takes.  A match is replaced by [repl] and
    the cursor jumps over it ([skip] counts what is left of the jump).
    [count] is the most replacements to make, [0] for no bound; [n] is
    how many were made. *)
Fixpoint substitute (matcher : text -> option nat) (repl : text)
         (count n skip : nat) (s : text) : text :=
  match s with
  | [] => []
  | c :: s' =>
      match skip with
      | S skip' => substitute matcher repl count n skip' s'
      | O =>
          if (count =? 0)%nat || (n <? count)%nat then
            match matcher s with
            | Some len =>
                repl ++ substitute matcher repl count (S n) (Nat.pred len) s'
            | None => c :: substitute matcher repl count n 0 s'
            end
          else s
      end
  end.

(** Where the first match starts and how long it is, as the cursor of
    [substitute] meets it. *)
Fixpoint first_match (matcher : text -> option nat) (s : text) : option (nat * nat) :=
  match matcher s with
  | Some len => Some (O, len)
  | None =>
      match s with
      | [] => None
      | _ :: s' =>
          match first_match matcher s' with
          | Some (i, len) => Some (S i, len)
          | None => None
          end
      end
  end.

(** [sub in s] *)
Fixpoint contains (sub s : text) : bool :=
  match strip_prefix sub s with
  | Some _ => true
  | None =>
      match s with
      | [] => false
      | _ :: s' => contains sub s'
      end
  end.

Definition occurs (sub s : text) : Prop :=
  exists pre post, s = pre ++ sub ++ post.

End Scan.

(** ** The regular expression of [RedactingFilter.redact]

    [rf"({pattern}\W+[^\s+]+)"] for a [pattern] that has no regular
    expression metacharacter, so that it stands for itself. *)

Module Re.

Definition between (lo hi : N) (c : ascii) : bool :=
  ((lo <=? N_of_ascii c) && (N_of_ascii c <=? hi))%N.

(** [\s] on code points below 256. *)
Definition is_space (c : ascii) : bool :=
  between 9 13 c || between 28 32 c || between 133 133 c || between 160 160 c.

(** [\w] on code points below 256: alphanumeric or the underscore. *)
Definition is_word (c : ascii) : bool :=
  between 48 57 c || between 65 90 c || between 95 95 c || between 97 122 c
  || between 170 170 c || between 178 179 c || between 181 181 c
  || between 185 186 c || between 188 190 c || between 192 214 c
  || between 216 246 c || between 248 255 c.

(** [\W] *)
Definition nonword (c : ascii) : bool := negb (is_word c).

(** [[^\s+]]: neither white space nor the plus sign. *)
Definition tokchar (c : ascii) : bool :=
  negb (is_space c || Ascii.eqb c "+"%char).

(** Characters that do not stand for themselves in a pattern. *)
Definition is_meta (c : ascii) : bool :=
  existsb (Ascii.eqb c) (text_of ".^$*+?{}[]\|()").

Definition plain (pattern : string) : bool :=
  forallb (fun c => negb (is_meta c)) (text_of pattern).

(** [\W+token+] at the front of [s], [\W+] having taken [k] characters:
    the token must start right after them; when it cannot, [\W+] gives
    one character back and the token is tried again.  The result is the
    number of characters matched. *)
Fixpoint nonword_then_token (token : ascii -> bool) (k : nat) (s : text) : option nat :=
  match k with
  | O => None
  | S k' =>
      match Scan.take_while token (drop k s) with
      | [] => nonword_then_token token k' s
      | tok => Some (k + length tok)%nat
      end
  end.

(** A match of [kw\W+token+] that starts at the front of [s]: the
    literal, then [\W+] greedy, then the token greedy. *)
Definition match_pattern (token : ascii -> bool) (kw s : text) : option nat :=
  match Scan.strip_prefix kw s with
  | Some s1 =>
      match nonword_then_token token (length (Scan.take_while nonword s1)) s1 with
      | Some n => Some (length kw + n)%nat
      | None => None
      end
  | None => None
  end.

(** The pattern of the code, whose token is [[^\s+]+]. *)
Definition match_here : text -> text -> option nat := match_pattern tokchar.

(** [re.IGNORECASE], the value of the flag. *)
Definition IGNORECASE : nat := 2.

(** [re.sub(pattern, repl, string, count)]: the fourth positional
    parameter is [count]; flags are not given, matching is exact. *)
Definition sub (kw repl s : text) (count : nat) : text :=
  Scan.substitute (match_here kw) repl count 0 0 s.

(** A span that the pattern describes: the keyword, one or more
    non-word characters, one or more token characters. *)
Definition Span (token : ascii -> bool) (kw m : text) : Prop :=
  exists nw tok,
    m = kw ++ nw ++ tok /\
    nw <> [] /\ Forall (fun c => nonword c = true) nw /\
    tok <> [] /\ Forall (fun c => token c = true) tok.

Definition NoSpan (token : ascii -> bool) (kw s : text) : Prop :=
  forall pre m rest, s = pre ++ m ++ rest -> ~ Span token kw m.

(** [m], between [pre] and [rest], is the match that the scan finds
    first: no span starts further left, and no span that starts where
    [m] starts is longer. *)
Definition Leftmost (token : ascii -> bool) (kw pre m rest : text) : Prop :=
  Span token kw m /\
  forall pre' m' rest',
    pre ++ m ++ rest = pre' ++ m' ++ rest' -> Span token kw m' ->
    (length pre < length pre')%nat \/
    (length pre = length pre' /\ length m' <= length m)%nat.

End Re.

(** ** RedactingFilter (logger.py, lines 36-48) *)

Module RedactingFilter.

Record t := mk { _patterns : list string }.

(** [f"{pattern} {'*' * 5} "] *)
Definition replacement (pattern : string) : string :=
  pattern +:+ " " +:+ "*****" +:+ " ".

(** One turn of the loop of [redact]. *)
Definition redact_one (pattern msg : string) : string :=
  string_of (Re.sub (text_of pattern) (text_of (replacement pattern))
                    (text_of msg) Re.IGNORECASE).

Definition redact (self : t) (msg : string) : string :=
  fold_left (fun msg pattern => redact_one pattern msg) (_patterns self) msg.

Definition filter (self : t) (record : LogRecord) : bool * LogRecord :=
  (true, {| module := module record; levelno := levelno record;
            msg := redact self (msg record) |}).

End RedactingFilter.

(** The redaction as the specification words it: the token is any run of
    characters that are not white space, and every match is replaced. *)
Module Worded.

Definition token (c : ascii) : bool := negb (Re.is_space c).

Definition redact_one (pattern msg : string) : string :=
  string_of (Scan.substitute (Re.match_pattern token (text_of pattern))
                             (text_of (pattern +:+ " ***** ")) 0 0 0 (text_of msg)).

Definition redact (patterns : list string) (msg : string) : string :=
  fold_left (fun msg pattern => redact_one pattern msg) patterns msg.

End Worded.

(** ** [str.replace] *)

Module Str.

Definition match_literal (old s : text) : option nat :=
  match Scan.strip_prefix old s with
  | Some _ => Some (length old)
  | None => None
  end.

(** [s.replace(old, new)]: every occurrence met from the left is
    replaced; an empty [old] matches before every character and at the
    end. *)
Definition replace_text (s old new : text) : text :=
  match old with
  | [] => new ++ flat_map (fun c => c :: new) s
  | _ :: _ => Scan.substitute (match_literal old) new 0 0 0 s
  end.

Definition replace (s old new : string) : string :=
  string_of (replace_text (text_of s) (text_of old) (text_of new)).

(** [old], between [pre] and [rest], is the leftmost occurrence. *)
Definition First (old pre rest : text) : Prop :=
  forall pre' rest',
    pre ++ old ++ rest = pre' ++ old ++ rest' -> (length pre <= length pre')%nat.

End Str.

(** ** SimpleLogger (logger.py, lines 56-71) *)

Module SimpleLogger.

(** The call [self.log(level, msg, ...)] that a convenience method ends
    with. *)
Record log_call := mkCall {
  call_level : Z;
  call_msg : string
}.

Definition success (msg : string) : log_call :=
  {| call_level := SUCCESS; call_msg := msg |}.

(** [hash_kw] is the keyword argument [hash], [None] when it is not
    given. *)
Definition hash (msg : string) (hash_kw : option (list string)) : log_call :=
  let to_hash := default [] hash_kw in
  let msg := fold_left (fun msg hash => Str.replace msg hash "*****") to_hash msg in
  {| call_level := HASH; call_msg := msg |}.

(** A literal that the mask cannot bring back: not empty, no asterisk. *)
Definition maskable (h : string) : Prop :=
  h <> "" /\ ~ In "*"%char (text_of h).

End SimpleLogger.

(** ** The objects of the host [logging] module that [get_logger] builds

    Filters and handlers are objects with an identity: they live in a store
    under a location.  A logger is the one object that [logging] keeps for
    its name, the root logger under ["root"]. *)

Definition loc : Type := nat.

Inductive filter_obj :=
| DuplicateFilterObj (st : DuplicateFilter.t)
| RedactingFilterObj (st : RedactingFilter.t).

(** [WrapperLogFormatter(fmt=..., log_colors=..., secondary_log_colors={})] *)
Record formatter := mkFormatter {
  fmt : string;
  log_colors : list (string * string)
}.

Inductive handler_kind :=
| StreamHandler
| RotatingFileHandler (filename : string) (maxBytes backupCount : Z).

Record handler_obj := mkHandler {
  h_kind : handler_kind;
  h_level : Z;
  h_formatter : option formatter;
  h_filters : list loc
}.

Record logger_obj := mkLogger {
  l_level : Z;
  l_handlers : list loc;
  l_filters : list loc;
  l_propagate : bool
}.

(** [level: int | str] *)
Inductive level_arg :=
| LevelInt (n : Z)
| LevelName (s : string).

Record world := mkWorld {
  filters : gmap loc filter_obj;
  handlers : gmap loc handler_obj;
  loggers : gmap string logger_obj;
  next_loc : loc;
  nameToLevel : gmap string Z;   (* logging._nameToLevel *)
  writable : gset string;       (* the paths that can be opened for append *)
  LOGGERS : gmap string string  (* logger.py, line 11 *)
}.

Definition with_filters (f : gmap loc filter_obj) (w : world) : world :=
  mkWorld f (handlers w) (loggers w) (next_loc w) (nameToLevel w) (writable w) (LOGGERS w).
Definition with_handlers (h : gmap loc handler_obj) (w : world) : world :=
  mkWorld (filters w) h (loggers w) (next_loc w) (nameToLevel w) (writable w) (LOGGERS w).
Definition with_loggers (l : gmap string logger_obj) (w : world) : world :=
  mkWorld (filters w) (handlers w) l (next_loc w) (nameToLevel w) (writable w) (LOGGERS w).
Definition with_next_loc (n : loc) (w : world) : world :=
  mkWorld (filters w) (handlers w) (loggers w) n (nameToLevel w) (writable w) (LOGGERS w).
Definition with_nameToLevel (t : gmap string Z) (w : world) : world :=
  mkWorld (filters w) (handlers w) (loggers w) (next_loc w) t (writable w) (LOGGERS w).
Definition with_LOGGERS (r : gmap string string) (w : world) : world :=
  mkWorld (filters w) (handlers w) (loggers w) (next_loc w) (nameToLevel w) (writable w) r.

(** Computations on the world that may raise; what was changed before the
    exception stays changed. *)
Definition M (A : Type) : Type := world -> outcome A * world.

#[global] Instance M_ret : MRet M := fun A a w => (Return a, w).
#[global] Instance M_bind : MBind M := fun A B f m w =>
  match m w with
  | (Return a, w1) => f a w1
  | (Raise e, w1) => (Raise e, w1)
  end.

Definition raise {A} (e : exn) : M A := fun w => (Raise e, w).
Definition get_world : M world := fun w => (Return w, w).
Definition modify (f : world -> world) : M unit := fun w => (Return tt, f w).
Definition when (b : bool) (m : M unit) : M unit := if b then m else mret tt.

Module Logging.

Definition root_name : string := "root".

Definition new_filter (o : filter_obj) : M loc := fun w =>
  (Return (next_loc w),
   with_next_loc (S (next_loc w)) (with_filters (<[next_loc w := o]> (filters w)) w)).

Definition new_handler (o : handler_obj) : M loc := fun w =>
  (Return (next_loc w),
   with_next_loc (S (next_loc w)) (with_handlers (<[next_loc w := o]> (handlers w)) w)).

Definition update_handler (h : loc) (f : handler_obj -> handler_obj) : M unit :=
  modify (fun w => with_handlers (alter f h (handlers w)) w).

Definition update_logger (l : string) (f : logger_obj -> logger_obj) : M unit :=
  modify (fun w => with_loggers (alter f l (loggers w)) w).

(** [list.append] guarded by [if not (x in list)], as [addFilter] and
    [addHandler] do. *)
Definition add_once (x : loc) (xs : list loc) : list loc :=
  if bool_decide (x ∈ xs) then xs else xs ++ [x].

(** [logging._checkLevel] *)
Definition checkLevel (level : level_arg) : M Z :=
  match level with
  | LevelInt n => mret n
  | LevelName s =>
      w ← get_world;
      match nameToLevel w !! s with
      | Some n => mret n
      | None => raise ValueError
      end
  end.

(** [logging.addLevelName] *)
Definition addLevelName (level : Z) (levelName : string) : M unit :=
  modify (fun w => with_nameToLevel (<[levelName := level]> (nameToLevel w)) w).

(** [SimpleLogger(name)]: [Logger.__init__] with the default level of the
    subclass, then the two level names. *)
Definition new_SimpleLogger (name : string) : M unit :=
  modify (fun w => with_loggers (<[name := mkLogger INFO [] [] true]> (loggers w)) w);;
  addLevelName SUCCESS "SUCCESS";;
  addLevelName HASH "HASH".

(** [logging.getLogger(name)], the logger class being [SimpleLogger]
    (logger.py, line 74).  The parent and child links of the hierarchy
    are not modelled. *)
Definition getLogger (name : string) : M string :=
  if bool_decide (name = "") || bool_decide (name = root_name) then mret root_name
  else
    w ← get_world;
    match loggers w !! name with
    | Some _ => mret name
    | None => new_SimpleLogger name;; mret name
    end.

Definition Handler_setFormatter (h : loc) (f : formatter) : M unit :=
  update_handler h (fun o => mkHandler (h_kind o) (h_level o) (Some f) (h_filters o)).

Definition Handler_addFilter (h : loc) (f : loc) : M unit :=
  update_handler h (fun o =>
    mkHandler (h_kind o) (h_level o) (h_formatter o) (add_once f (h_filters o))).

Definition Handler_setLevel (h : loc) (level : level_arg) : M unit :=
  n ← checkLevel level;
  update_handler h (fun o => mkHandler (h_kind o) n (h_formatter o) (h_filters o)).

Definition Logger_addHandler (l : string) (h : loc) : M unit :=
  update_logger l (fun o =>
    mkLogger (l_level o) (add_once h (l_handlers o)) (l_filters o) (l_propagate o)).

Definition Logger_addFilter (l : string) (f : loc) : M unit :=
  update_logger l (fun o =>
    mkLogger (l_level o) (l_handlers o) (add_once f (l_filters o)) (l_propagate o)).

Definition Logger_setLevel (l : string) (level : level_arg) : M unit :=
  n ← checkLevel level;
  update_logger l (fun o => mkLogger n (l_handlers o) (l_filters o) (l_propagate o)).

Definition Logger_set_propagate (l : string) (b : bool) : M unit :=
  update_logger l (fun o => mkLogger (l_level o) (l_handlers o) (l_filters o) b).

(** [logging.StreamHandler()] *)
Definition new_StreamHandler : M loc :=
  new_handler (mkHandler StreamHandler NOTSET None []).

(** [RotatingFileHandler(filename, maxBytes, backupCount)] opens the file
    when it is built. *)
Definition new_RotatingFileHandler (filename : string) (maxBytes backupCount : Z) : M loc :=
  w ← get_world;
  if bool_decide (filename ∈ writable w) then
    new_handler (mkHandler (RotatingFileHandler filename maxBytes backupCount) NOTSET None [])
  else raise OSError.

End Logging.

(** ** get_logger (logger.py, lines 77-142) *)

Record args := mkArgs {
  level : level_arg;
  filename : option string;
  console : bool;
  file_max_bytes : Z;
  file_backup_count : Z;
  mask_sensitive : bool;
  mask_sensitive_patterns : option (list string)
}.

(** The defaults of the signature. *)
Definition default_args : args :=
  {| level := LevelInt INFO; filename := None; console := true;
     file_max_bytes := 104857600; file_backup_count := 20;
     mask_sensitive := false; mask_sensitive_patterns := None |}.

Definition log_formatter : formatter :=
  {| fmt := "%(asctime)s %(name)s %(log_color)s%(levelname)s%(reset)s %(message)s";
     log_colors := [("DEBUG", "cyan"); ("INFO", "green"); ("WARNING", "yellow");
                    ("SUCCESS", "bold_green"); ("ERROR", "red");
                    ("CRITICAL", "red,bg_white"); ("HASH", "bold_yellow")] |}.

Definition default_patterns : list string := ["password"; "token"; "apikey"; "secret"].

(** [if not mask_sensitive_patterns: mask_sensitive_patterns = [...]]:
    [None] and the empty list are both false. *)
Definition effective_patterns (given : option (list string)) : list string :=
  match given with
  | Some (p :: ps) => p :: ps
  | Some [] | None => default_patterns
  end.

(** Truth value of [filename: str | None]. *)
Definition truthy_filename (f : option string) : option string :=
  match f with
  | Some "" | None => None
  | Some path => Some path
  end.

Definition get_logger (name : string) (a : args) : M string :=
  w ← get_world;
  match LOGGERS w !! name with
  | Some cached => mret cached
  | None =>
      logger_obj ← Logging.getLogger name;
      when (console a) (
        console_handler ← Logging.new_StreamHandler;
        Logging.Handler_setFormatter console_handler log_formatter;;
        f ← Logging.new_filter (DuplicateFilterObj DuplicateFilter.new);
        Logging.Handler_addFilter console_handler f;;
        Logging.Logger_addHandler logger_obj console_handler);;
      Logging.Logger_setLevel logger_obj (level a);;
      f ← Logging.new_filter (DuplicateFilterObj DuplicateFilter.new);
      Logging.Logger_addFilter logger_obj f;;
      when (mask_sensitive a) (
        f ← Logging.new_filter
              (RedactingFilterObj
                 (RedactingFilter.mk (effective_patterns (mask_sensitive_patterns a))));
        Logging.Logger_addFilter logger_obj f);;
      match truthy_filename (filename a) with
      | Some path =>
          log_handler ← Logging.new_RotatingFileHandler
                          path (file_max_bytes a) (file_backup_count a);
          Logging.Handler_setFormatter log_handler log_formatter;;
          Logging.Handler_setLevel log_handler (level a);;
          Logging.Logger_addHandler logger_obj log_handler
      | None => mret tt
      end;;
      Logging.Logger_set_propagate logger_obj false;;
      modify (fun w => with_LOGGERS (<[name := logger_obj]> (LOGGERS w)) w);;
      mret logger_obj
  end.

(** The world once [simple_logger.logger] is imported: the root logger at
    WARNING, the module-level [LOGGER] (a plain logger made before the
    logger class is set), the level names of [logging], no file known to
    be writable, an empty [LOGGERS]. *)
Definition initial_world : world :=
  {| filters := ∅;
     handlers := ∅;
     loggers := {[ "root" := mkLogger WARNING [] [] true;
                   "simple_logger.logger" := mkLogger NOTSET [] [] true ]};
     next_loc := 0%nat;
     nameToLevel := list_to_map [("CRITICAL", 50); ("FATAL", 50); ("ERROR", 40);
                                 ("WARN", 30); ("WARNING", 30); ("INFO", 20);
                                 ("DEBUG", 10); ("NOTSET", 0)];
     writable := ∅;
     LOGGERS := ∅ |}.

(** The level that [setLevel] ends with: a name is looked up once the
    logger exists, and making a [SimpleLogger] adds SUCCESS and HASH to the
    names. *)
Definition requested_level (name : string) (lv : level_arg) (w : world) : option Z :=
  match lv with
  | LevelInt n => Some n
  | LevelName s => nameToLevel (snd (Logging.getLogger name w)) !! s
  end.

(** Locations handed out so far are below [next_loc]. *)
Definition world_ok (w : world) : Prop :=
  (forall l, is_Some (filters w !! l) -> (l < next_loc w)%nat) /\
  (forall l, is_Some (handlers w !! l) -> (l < next_loc w)%nat) /\
  is_Some (loggers w !! Logging.root_name).

(** ** Reading the events of a run of [DuplicateFilter] *)

Module Trace.
Import DuplicateFilter.

(** The records that got a verdict, in order. *)
Fixpoint judged (es : list event) : list LogRecord :=
  match es with
  | [] => []
  | Passed r :: es' | Suppressed r :: es' => r :: judged es'
  | _ :: es' => judged es'
  end.

(** How many records were suppressed. *)
Fixpoint suppressed (es : list event) : Z :=
  match es with
  | [] => 0
  | Suppressed _ :: es' => 1 + suppressed es'
  | _ :: es' => suppressed es'
  end.

(** The calls made on [LOGGER], in order. *)
Fixpoint notices (es : list event) : list SideLog :=
  match es with
  | [] => []
  | Warned w :: es' => w :: notices es'
  | _ :: es' => notices es'
  end.

Fixpoint failures (es : list event) : list exn :=
  match es with
  | [] => []
  | Failed e :: es' => e :: failures es'
  | _ :: es' => failures es'
  end.

(** No record has the (module, levelno, msg) of the one before it, [prev]
    being what came before the first. *)
Fixpoint no_repeat (prev : option log_key) (records : list LogRecord) : Prop :=
  match records with
  | [] => True
  | r :: rest => Some (current_log r) <> prev /\ no_repeat (Some (current_log r)) rest
  end.

Definition sum (ks : list Z) : Z := fold_right Z.add 0 ks.

End Trace.

(** The characters that stand right behind the occurrences of [kw] in [s]. *)
Fixpoint followers (kw s : text) : list ascii :=
  match s with
  | [] => []
  | _ :: s' =>
      match Scan.strip_prefix kw s with
      | Some (c :: _) => c :: followers kw s'
      | _ => followers kw s'
      end
  end.

(** [m] keeps worlds well formed, whether it returns or raises. *)
Definition preserves_ok {A} (m : M A) : Prop :=
  forall w r w', world_ok w -> m w = (r, w') -> world_ok w'.

(** * Properties *)

(** ** DuplicateFilter *)

Section DuplicateFilterFacts.
Import DuplicateFilter.

(** The guard on [repeated_number_exists] makes every attribute read
    safe: [filter] returns on every instance. *)
Lemma filter_returns (self : t) (record : LogRecord) :
  exists b, ret (filter self record) = Return b.
Proof.
  unfold filter.
  destruct (negb (bool_decide (Some (current_log record) = last_log self)));
    destruct (repeated_number self) as [n|]; simpl;
    try destruct (negb (n =? 0)); simpl; eauto.
Qed.

(** After any call the instance remembers the record it has just seen,
    and the counter is set. *)
Lemma filter_remembers (self : t) (record : LogRecord) :
  last_log (self' (filter self record)) = Some (current_log record) /\
  exists n, repeated_number (self' (filter self record)) = Some n.
Proof.
  unfold filter.
  destruct (bool_decide (Some (current_log record) = last_log self)) eqn:E; simpl.
  - apply bool_decide_eq_true in E.
    destruct (repeated_number self) as [n|]; simpl;
      try destruct (negb (n =? 0)); simpl; eauto.
  - destruct (repeated_number self) as [n|]; simpl;
      try destruct (negb (n =? 0)); simpl; eauto.
Qed.

Lemma filter_same (key : log_key) (c : Z) (record : LogRecord) :
  current_log record = key ->
  filter {| last_log := Some key; repeated_number := Some c |} record
  = mkResult (Return false) []
             {| last_log := Some key; repeated_number := Some (c + 1) |}.
Proof.
  intros <-. unfold filter; simpl.
  rewrite bool_decide_eq_true_2 by reflexivity; simpl.
  destruct (Z.eqb_spec c 0) as [->|]; reflexivity.
Qed.

Lemma filter_other (key : log_key) (c : Z) (record : LogRecord) :
  current_log record <> key ->
  filter {| last_log := Some key; repeated_number := Some c |} record
  = mkResult (Return true)
             (if c =? 0 then [] else [mkSideLog WARNING (repeated_message c)])
             {| last_log := Some (current_log record); repeated_number := Some 0 |}.
Proof.
  intros Hne. unfold filter; simpl.
  rewrite bool_decide_eq_false_2 by congruence; simpl.
  destruct (Z.eqb_spec c 0) as [->|]; reflexivity.
Qed.

Lemma run_cons (self : t) (record : LogRecord) (rest : list LogRecord) :
  run self (record :: rest)
  = (map Warned (warnings (filter self record))
       ++ [verdict record (ret (filter self record))]
       ++ fst (run (self' (filter self record)) rest),
     snd (run (self' (filter self record)) rest)).
Proof.
  simpl. destruct (filter_returns self record) as [b ->].
  destruct (run _ rest). simpl. by rewrite <- app_assoc.
Qed.

Lemma run_app (self : t) (xs ys : list LogRecord) :
  run self (xs ++ ys)
  = (fst (run self xs) ++ fst (run (snd (run self xs)) ys),
     snd (run (snd (run self xs)) ys)).
Proof.
  revert self. induction xs as [|x xs IH]; intros self.
  - simpl. by destruct (run self ys).
  - rewrite <- app_comm_cons, !run_cons, IH. simpl.
    by rewrite <- !app_assoc.
Qed.

(** A run of duplicates only moves the counter. *)
Lemma run_duplicates (key : log_key) (c : Z) (dups : list LogRecord) :
  Forall (fun d => current_log d = key) dups ->
  run {| last_log := Some key; repeated_number := Some c |} dups
  = (map Suppressed dups,
     {| last_log := Some key;
        repeated_number := Some (c + Z.of_nat (length dups)) |}).
Proof.
  intros H. revert c. induction H as [|d dups Hd _ IH]; intros c.
  - simpl. by rewrite Z.add_0_r.
  - rewrite run_cons, (filter_same key c d Hd). simpl.
    rewrite IH. simpl. do 3 f_equal. lia.
Qed.

Lemma filter_new (record : LogRecord) :
  filter new record
  = mkResult (Return true) []
             {| last_log := Some (current_log record); repeated_number := Some 0 |}.
Proof. reflexivity. Qed.

(** C3: on a fresh instance the first call of [filter] returns [True]
    whatever the record holds, makes no call on [LOGGER] and raises
    nothing: with no attribute set the record counts as new. *)
Theorem first_record_passes (record : LogRecord) :
  ret (filter new record) = Return true /\
  warnings (filter new record) = [] /\
  self' (filter new record)
  = {| last_log := Some (current_log record); repeated_number := Some 0 |} /\
  fst (run new [record]) = [Passed record].
Proof. by rewrite run_cons, filter_new. Qed.

(** An instance that the records of [LOGGER] do not come to, in any
    state, after any sequence of records that ends with [prev]: [filter]
    returns [False] on [record] exactly when it has the (module, levelno,
    msg) of [prev], and then the counter goes from [n] to [n + 1];
    otherwise it returns [True] and the counter is back to 0. *)
Lemma unreached_consecutive
      (self : t) (records : list LogRecord) (prev record : LogRecord) :
  let before := snd (run self (records ++ [prev])) in
  let r := filter before record in
  let same := bool_decide (current_log record = current_log prev) in
  ret r = Return (negb same) /\
  (exists n, repeated_number before = Some n /\
             repeated_number (self' r) = Some (if same then n + 1 else 0)) /\
  fst (run new [record; record; record])
  = [Passed record; Suppressed record; Suppressed record].
Proof.
  intros before r same.
  assert (Hb : exists n, before = {| last_log := Some (current_log prev);
                                     repeated_number := Some n |}).
  { subst before. rewrite run_app. simpl.
    destruct (filter_returns (snd (run self records)) prev) as [b Hret].
    destruct (filter_remembers (snd (run self records)) prev) as [Hl [n Hn]].
    rewrite Hret. simpl.
    destruct (self' (filter (snd (run self records)) prev)) as [l c].
    simpl in *. subst. eauto. }
  destruct Hb as [n Hb]. subst r same. rewrite Hb.
  split; [|split].
  - case_bool_decide as E.
    + by rewrite filter_same.
    + by rewrite filter_other.
  - exists n. split; [reflexivity|].
    case_bool_decide as E.
    + by rewrite filter_same.
    + by rewrite filter_other.
  - rewrite run_cons, filter_new.
    cbn [self' ret warnings].
    rewrite run_cons, (filter_same _ 0 record eq_refl).
    cbn [self' ret warnings].
    rewrite run_cons, (filter_same _ (0 + 1) record eq_refl).
    reflexivity.
Qed.

(** An instance that the records of [LOGGER] do not come to, after a
    record that passed, [N] duplicates of it and then a record with another
    (module, levelno, msg): one call on [LOGGER] when [N >= 1], none when
    [N = 0]. *)
Lemma unreached_repeat_notice
      (self : t) (first : LogRecord) (dups : list LogRecord) (record : LogRecord) :
  ret (filter self first) = Return true ->
  Forall (fun d => current_log d = current_log first) dups ->
  current_log record <> current_log first ->
  let N := Z.of_nat (length dups) in
  fst (run (self' (filter self first)) (dups ++ [record]))
  = map Suppressed dups
      ++ (if N =? 0 then []
          else [Warned (mkSideLog WARNING
                          ("Last log repeated " +:+ str_of_int N +:+ " times."))])
      ++ [Passed record].
Proof.
  intros Hpass Hdups Hne N.
  assert (Hst : self' (filter self first)
                = {| last_log := Some (current_log first); repeated_number := Some 0 |}).
  { revert Hpass. unfold filter.
    destruct (negb (bool_decide (Some (current_log first) = last_log self)));
      destruct (repeated_number self) as [n|]; simpl;
      try destruct (negb (n =? 0)); simpl; congruence. }
  rewrite Hst, run_app, (run_duplicates _ 0 dups Hdups). simpl.
  rewrite (filter_other _ _ record Hne).
  cbn [fst snd ret warnings verdict self' run].
  fold N. rewrite Z.add_0_l, app_nil_r. f_equal.
  destruct (N =? 0); reflexivity.
Qed.

(** *** The instance that the records of [LOGGER] may come back to *)

(** Where they do not come back, [Attached.filter] is [filter]. *)
Lemma filter_unreached (fuel : nat) (self : t) (record : LogRecord) :
  Attached.filter (S fuel) false self record
  = Some (Attached.mkReply (ret (filter self record))
                           (map Warned (warnings (filter self record)))
                           (self' (filter self record))).
Proof.
  unfold filter. cbn [Attached.filter].
  destruct (negb (bool_decide (Some (current_log record) = last_log self)));
    destruct (repeated_number self) as [n|]; cbn [truthy repeated_number];
    try destruct (negb (n =? 0)); reflexivity.
Qed.

Lemma run_unreached (fuel : nat) (self : t) (records : list LogRecord) :
  Attached.run (S fuel) false self records = Some (run self records).
Proof.
  revert self. induction records as [|record rest IH]; intros self; [done|].
  cbn [Attached.run run]. rewrite filter_unreached.
  cbn [Attached.value Attached.trace Attached.after].
  destruct (ret (filter self record)); [|done].
  rewrite IH. by destruct (run _ rest).
Qed.

(** One level of [Attached.filter], for a record that is not the one
    remembered and a counter that is set and not 0. *)
Lemma filter_notice (fuel : nat) (reaches : bool) (key : option log_key) (n : Z)
      (record : LogRecord) :
  Some (current_log record) <> key ->
  n <> 0 ->
  Attached.filter (S fuel) reaches
                  {| last_log := key; repeated_number := Some n |} record
  = if reaches then
      match Attached.filter fuel reaches
                            {| last_log := Some (current_log record);
                               repeated_number := Some n |}
                            (Attached.warning_record n) with
      | Some nested =>
          match Attached.value nested with
          | Return b =>
              Some (Attached.mkReply (Return true)
                      (Warned (mkSideLog WARNING (repeated_message n))
                         :: Attached.trace nested
                         ++ [verdict (Attached.warning_record n) (Return b)])
                      {| last_log := last_log (Attached.after nested);
                         repeated_number := Some 0 |})
          | Raise e =>
              Some (Attached.mkReply (Raise e)
                      (Warned (mkSideLog WARNING (repeated_message n))
                         :: Attached.trace nested)
                      (Attached.after nested))
          end
      | None => None
      end
    else
      Some (Attached.mkReply (Return true)
              [Warned (mkSideLog WARNING (repeated_message n))]
              {| last_log := Some (current_log record);
                 repeated_number := Some 0 |}).
Proof.
  intros Hkey Hn. cbn [Attached.filter last_log repeated_number truthy].
  rewrite (bool_decide_eq_false_2 _ Hkey). cbn [negb].
  by destruct (Z.eqb_spec n 0).
Qed.

(** The other cases make no call on [LOGGER]: [fuel] plays no part. *)
Lemma filter_quiet (fuel fuel' : nat) (reaches : bool) (self : t)
      (record : LogRecord) :
  Some (current_log record) = last_log self \/ truthy (repeated_number self) = false ->
  Attached.filter (S fuel) reaches self record
  = Attached.filter (S fuel') reaches self record.
Proof.
  intros H. cbn [Attached.filter].
  destruct H as [H|H].
  - rewrite bool_decide_eq_true_2 by done. reflexivity.
  - rewrite H. reflexivity.
Qed.

(** A call that came back comes back the same with more fuel. *)
Lemma filter_more_fuel (fuel : nat) (reaches : bool) (self : t)
      (record : LogRecord) (r : Attached.reply) :
  Attached.filter fuel reaches self record = Some r ->
  Attached.filter (S fuel) reaches self record = Some r.
Proof.
  revert self record r. induction fuel as [|fuel IH]; intros self record r; [done|].
  intros H. destruct self as [l c].
  destruct (decide (Some (current_log record) = l)) as [Hl|Hl];
    [by rewrite (filter_quiet _ fuel) by (by left)|].
  destruct (truthy c) eqn:Ht;
    [|by rewrite (filter_quiet _ fuel) by (by right)].
  destruct c as [n|]; [|discriminate].
  assert (n <> 0) as Hn by (intros ->; discriminate).
  rewrite filter_notice in H |- * by done.
  destruct reaches; [|exact H].
  destruct (Attached.filter fuel true _ (Attached.warning_record n))
    as [nested|] eqn:E; [|discriminate].
  by rewrite (IH _ _ _ E).
Qed.

Lemma filter_fuel_le (fuel fuel' : nat) (reaches : bool) (self : t)
      (record : LogRecord) (r : Attached.reply) :
  (fuel <= fuel')%nat ->
  Attached.filter fuel reaches self record = Some r ->
  Attached.filter fuel' reaches self record = Some r.
Proof.
  induction 1 as [|fuel' _ IH]; [done|]. intros H. by apply filter_more_fuel, IH.
Qed.

(** A record with the key that the instance remembers: no call on
    [LOGGER], wherever the instance is. *)
Lemma attached_same (fuel : nat) (reaches : bool) (key : log_key) (c : Z)
      (record : LogRecord) :
  current_log record = key ->
  Attached.filter (S fuel) reaches
                  {| last_log := Some key; repeated_number := Some c |} record
  = Some (Attached.mkReply (Return false) []
            {| last_log := Some key; repeated_number := Some (c + 1) |}).
Proof.
  intros <-. cbn [Attached.filter last_log repeated_number truthy].
  rewrite bool_decide_eq_true_2 by reflexivity. cbn [negb].
  destruct (Z.eqb_spec c 0) as [->|]; reflexivity.
Qed.

Lemma attached_new (fuel : nat) (reaches : bool) (record : LogRecord) :
  Attached.filter (S fuel) reaches new record
  = Some (Attached.mkReply (Return true) []
            {| last_log := Some (current_log record); repeated_number := Some 0 |}).
Proof. reflexivity. Qed.

(** Another record after [c >= 1] duplicates, the records of [LOGGER]
    coming back: the record of the call is evaluated with [last_log]
    already set, so that a second call is made for it; the record of the
    second call has the key of the first and is suppressed.  In the end the
    instance remembers the record of [LOGGER], not the record it was
    given. *)
Lemma attached_notice_comes_back (fuel : nat) (key : option log_key) (c : Z)
      (record : LogRecord) :
  c <> 0 ->
  Some (current_log record) <> key ->
  current_log (Attached.warning_record c) <> current_log record ->
  Attached.filter (S (S (S fuel))) true
                  {| last_log := key; repeated_number := Some c |} record
  = Some (Attached.mkReply (Return true)
            [Warned (mkSideLog WARNING (repeated_message c));
             Warned (mkSideLog WARNING (repeated_message c));
             Suppressed (Attached.warning_record c);
             Passed (Attached.warning_record c)]
            {| last_log := Some (current_log (Attached.warning_record c));
               repeated_number := Some 0 |}).
Proof.
  intros Hc Hkey Hw.
  rewrite filter_notice by done.
  rewrite filter_notice by congruence.
  by rewrite attached_same.
Qed.

(** The record is itself the notice that the instance is about to make:
    the record of the call is a duplicate, and is suppressed. *)
Lemma attached_notice_is_record (fuel : nat) (key : option log_key) (c : Z)
      (record : LogRecord) :
  c <> 0 ->
  Some (current_log record) <> key ->
  current_log (Attached.warning_record c) = current_log record ->
  Attached.filter (S (S fuel)) true
                  {| last_log := key; repeated_number := Some c |} record
  = Some (Attached.mkReply (Return true)
            [Warned (mkSideLog WARNING (repeated_message c));
             Suppressed (Attached.warning_record c)]
            {| last_log := Some (current_log record);
               repeated_number := Some 0 |}).
Proof.
  intros Hc Hkey Hw.
  rewrite filter_notice by done.
  by rewrite attached_same.
Qed.

(** With fuel for three nested calls every call comes back. *)
Lemma filter_comes_back (fuel : nat) (reaches : bool) (self : t)
      (record : LogRecord) :
  (3 <= fuel)%nat ->
  exists r, Attached.filter fuel reaches self record = Some r.
Proof.
  intros Hfuel.
  enough (exists r, Attached.filter 3 reaches self record = Some r) as [r Hr]
    by (exists r; by apply (filter_fuel_le 3)).
  destruct self as [l c].
  destruct (decide (Some (current_log record) = l)) as [Hl|Hl].
  { rewrite (filter_quiet _ 0) by (by left). cbn [Attached.filter].
    rewrite bool_decide_eq_true_2 by done. cbn [negb].
    destruct (truthy _); [destruct (repeated_number _)|]; eauto. }
  destruct (truthy c) eqn:Ht.
  2:{ rewrite (filter_quiet _ 0) by (by right). cbn [Attached.filter].
      rewrite (bool_decide_eq_false_2 _ Hl). cbn [negb repeated_number].
      rewrite Ht. eauto. }
  destruct c as [n|]; [|discriminate].
  assert (n <> 0) as Hn by (intros ->; discriminate).
  destruct reaches.
  - destruct (decide (current_log (Attached.warning_record n) = current_log record))
      as [Hw|Hw].
    + eexists. apply (filter_fuel_le 2 3); [lia|].
      by apply attached_notice_is_record.
    + rewrite attached_notice_comes_back by done. eauto.
  - rewrite filter_notice by done. eauto.
Qed.

(** C1 (amended): let an instance that the records of [LOGGER] do not
    come to, in any state, evaluate any sequence of records that ends with
    [prev], and then [record].  [filter] returns [False] exactly when
    [record] has the (module, levelno, msg) of [prev], and then the counter
    goes from [n] to [n + 1]; otherwise it returns [True] (and the counter
    is back to 0).  Of three identical records given to a fresh instance
    the first passes and the next two are suppressed, wherever the instance
    is. *)
Theorem consecutive_duplicate_suppressed
        (fuel : nat) (reaches : bool) (self : t)
        (records : list LogRecord) (prev record : LogRecord) :
  (0 < fuel)%nat ->
  reaches = false ->
  let same := bool_decide (current_log record = current_log prev) in
  exists evs before r,
    Attached.run fuel reaches self (records ++ [prev]) = Some (evs, before) /\
    Attached.filter fuel reaches before record = Some r /\
    Attached.value r = Return (negb same) /\
    (exists n, repeated_number before = Some n /\
               repeated_number (Attached.after r)
               = Some (if same then n + 1 else 0)) /\
    forall reaches',
      Attached.run fuel reaches' new [record; record; record]
      = Some ([Passed record; Suppressed record; Suppressed record],
              {| last_log := Some (current_log record);
                 repeated_number := Some 2 |}).
Proof.
  intros Hfuel -> same. destruct fuel as [|fuel]; [lia|].
  destruct (unreached_consecutive self records prev record)
    as (Hret & Hcount & _).
  rewrite run_unreached.
  destruct (run self (records ++ [prev])) as [evs before]. cbn [snd] in *.
  eexists evs, before, _. rewrite filter_unreached.
  split; [reflexivity|]. split; [reflexivity|].
  cbn [Attached.value Attached.after].
  split; [exact Hret|]. split; [exact Hcount|].
  intros reaches'. cbn [Attached.run]. rewrite attached_new.
  cbn [Attached.value Attached.trace Attached.after].
  rewrite (attached_same fuel reaches' _ 0 record eq_refl).
  cbn [Attached.value Attached.trace Attached.after].
  rewrite (attached_same fuel reaches' _ (0 + 1) record eq_refl).
  reflexivity.
Qed.

Lemma consecutive_duplicate_suppressed_witness :
  exists evs before r,
    Attached.run 1 false new ([mkRecord "m" 20 "a"; mkRecord "m" 20 "a";
                               mkRecord "m" 20 "b"] ++ [mkRecord "m" 20 "b"])
    = Some (evs, before) /\
    Attached.filter 1 false before (mkRecord "m" 20 "b") = Some r /\
    Attached.value r = Return false /\
    (exists n, repeated_number before = Some n /\
               repeated_number (Attached.after r) = Some (n + 1)) /\
    forall reaches',
      Attached.run 1 reaches' new [mkRecord "m" 20 "b"; mkRecord "m" 20 "b";
                                   mkRecord "m" 20 "b"]
      = Some ([Passed (mkRecord "m" 20 "b"); Suppressed (mkRecord "m" 20 "b");
               Suppressed (mkRecord "m" 20 "b")],
              {| last_log := Some (current_log (mkRecord "m" 20 "b"));
                 repeated_number := Some 2 |}).
Proof.
  refine (consecutive_duplicate_suppressed 1 false new
            [mkRecord "m" 20 "a"; mkRecord "m" 20 "a"; mkRecord "m" 20 "b"]
            (mkRecord "m" 20 "b") (mkRecord "m" 20 "b") _ _).
  - lia.
  - reflexivity.
Defined.

(** C1 as worded fails for an instance that the records of [LOGGER] come
    back to: after "a", "a", "b" the instance remembers the record of its
    own notice, and the next "b", which has the (module, levelno, msg) of
    the record given just before it, passes. *)
Lemma duplicate_passes_after_own_notice :
  exists evs before r,
    Attached.run 3 true new ([mkRecord "m" 20 "a"; mkRecord "m" 20 "a"]
                               ++ [mkRecord "m" 20 "b"])
    = Some (evs, before) /\
    last_log before = Some ("logger", 30, "Last log repeated 1 times.") /\
    Attached.filter 3 true before (mkRecord "m" 20 "b") = Some r /\
    Attached.value r = Return true /\
    Attached.value r
    <> Return (negb (bool_decide (current_log (mkRecord "m" 20 "b")
                                  = current_log (mkRecord "m" 20 "b")))).
Proof.
  eexists _, _, _. split; [vm_compute; reflexivity|].
  split; [reflexivity|]. split; [vm_compute; reflexivity|].
  split; [reflexivity|]. cbn [Attached.value].
  rewrite bool_decide_eq_true_2 by reflexivity. discriminate.
Qed.

(** C2 (amended): for an instance that the records of [LOGGER] do not
    come to, after a record that passed, [N] duplicates of it and then a
    record with another (module, levelno, msg): the duplicates are
    suppressed in silence; when [N >= 1] the last call makes exactly one
    call on [LOGGER], at WARNING, with "Last log repeated N times.",
    before the record passes; when [N = 0] it makes none. *)
Theorem repeat_notice_once
        (fuel : nat) (reaches : bool) (self : t) (first : LogRecord)
        (dups : list LogRecord) (record : LogRecord) (r0 : Attached.reply) :
  (0 < fuel)%nat ->
  reaches = false ->
  Attached.filter fuel reaches self first = Some r0 ->
  Attached.value r0 = Return true ->
  Forall (fun d => current_log d = current_log first) dups ->
  current_log record <> current_log first ->
  let N := Z.of_nat (length dups) in
  exists final,
    Attached.run fuel reaches (Attached.after r0) (dups ++ [record])
    = Some (map Suppressed dups
              ++ (if N =? 0 then []
                  else [Warned (mkSideLog WARNING
                                  ("Last log repeated " +:+ str_of_int N
                                     +:+ " times."))])
              ++ [Passed record],
            final).
Proof.
  intros Hfuel -> Hr0 Hpass Hdups Hne N. destruct fuel as [|fuel]; [lia|].
  rewrite filter_unreached in Hr0. injection Hr0 as <-.
  cbn [Attached.value Attached.after] in *.
  rewrite run_unreached.
  pose proof (unreached_repeat_notice self first dups record Hpass Hdups Hne) as H.
  cbv zeta in H. fold N in H.
  destruct (run (self' (filter self first)) (dups ++ [record])) as [evs final].
  exists final. cbn [fst] in H. by rewrite H.
Qed.

Lemma repeat_notice_once_witness :
  exists final,
    Attached.run 1 false
                 {| last_log := Some (current_log (mkRecord "m" 20 "a"));
                    repeated_number := Some 0 |}
                 ([mkRecord "m" 20 "a"; mkRecord "m" 20 "a"] ++ [mkRecord "m" 20 "b"])
    = Some ([Suppressed (mkRecord "m" 20 "a"); Suppressed (mkRecord "m" 20 "a");
             Warned (mkSideLog WARNING "Last log repeated 2 times.");
             Passed (mkRecord "m" 20 "b")],
            final).
Proof.
  refine (repeat_notice_once 1 false new (mkRecord "m" 20 "a")
            [mkRecord "m" 20 "a"; mkRecord "m" 20 "a"] (mkRecord "m" 20 "b")
            _ _ _ eq_refl _ _ _).
  - lia.
  - reflexivity.
  - reflexivity.
  - repeat constructor.
  - discriminate.
Defined.

(** C2 as worded fails for an instance that the records of [LOGGER] come
    back to: after "a" and one duplicate, "b" makes two calls on [LOGGER]
    with "Last log repeated 1 times." before it passes, the second of them
    while the record of the first is evaluated (a record that follows "b",
    which was no duplicate). *)
Lemma notice_made_twice_when_it_comes_back :
  exists r0 final,
    Attached.filter 3 true new (mkRecord "m" 20 "a") = Some r0 /\
    Attached.value r0 = Return true /\
    Attached.run 3 true (Attached.after r0)
                 ([mkRecord "m" 20 "a"] ++ [mkRecord "m" 20 "b"])
    = Some ([Suppressed (mkRecord "m" 20 "a");
             Warned (mkSideLog WARNING "Last log repeated 1 times.");
             Warned (mkSideLog WARNING "Last log repeated 1 times.");
             Suppressed (mkRecord "logger" 30 "Last log repeated 1 times.");
             Passed (mkRecord "logger" 30 "Last log repeated 1 times.");
             Passed (mkRecord "m" 20 "b")],
            final) /\
    [Suppressed (mkRecord "m" 20 "a");
     Warned (mkSideLog WARNING "Last log repeated 1 times.");
     Warned (mkSideLog WARNING "Last log repeated 1 times.");
     Suppressed (mkRecord "logger" 30 "Last log repeated 1 times.");
     Passed (mkRecord "logger" 30 "Last log repeated 1 times.");
     Passed (mkRecord "m" 20 "b")]
    <> map Suppressed [mkRecord "m" 20 "a"]
         ++ [Warned (mkSideLog WARNING "Last log repeated 1 times.")]
         ++ [Passed (mkRecord "m" 20 "b")].
Proof.
  eexists _, _. split; [reflexivity|]. split; [reflexivity|].
  split; [vm_compute; reflexivity|]. discriminate.
Qed.

End DuplicateFilterFacts.

(** ** Scanning *)

Section ScanFacts.
Import Scan.

Lemma take_drop_while (p : ascii -> bool) (s : text) :
  take_while p s ++ drop_while p s = s.
Proof.
  induction s as [|c s IH]; simpl; [done|].
  destruct (p c); simpl; [by rewrite IH | done].
Qed.

Lemma take_while_Forall (p : ascii -> bool) (s : text) :
  Forall (fun c => p c = true) (take_while p s).
Proof.
  induction s as [|c s IH]; simpl; [constructor|].
  destruct (p c) eqn:E; [by constructor | constructor].
Qed.

Lemma take_while_app (p : ascii -> bool) (a b : text) :
  Forall (fun c => p c = true) a ->
  take_while p (a ++ b) = a ++ take_while p b.
Proof.
  induction 1 as [|c a Hc _ IH]; simpl; [done|]. by rewrite Hc, IH.
Qed.

Lemma take_while_app_length (p : ascii -> bool) (a b : text) :
  (length (take_while p (a ++ b)) <= length a)%nat \/
  length (take_while p (a ++ b)) = (length a + length (take_while p b))%nat.
Proof.
  induction a as [|c a IH]; simpl; [by right|].
  destruct (p c); simpl; [|left; lia].
  destruct IH as [IH|IH]; [left; lia | right; lia].
Qed.

Lemma take_while_prefix_length (p : ascii -> bool) (a b : text) :
  Forall (fun c => p c = true) a ->
  (length a <= length (take_while p (a ++ b)))%nat.
Proof.
  intros H. rewrite take_while_app by done. rewrite length_app. lia.
Qed.

Lemma take_take_while (p : ascii -> bool) (s : text) (k : nat) :
  (k <= length (take_while p s))%nat ->
  Forall (fun c => p c = true) (take k s).
Proof.
  revert k. induction s as [|c s IH]; intros k; simpl.
  - intros _. rewrite take_nil. constructor.
  - destruct k as [|k]; [constructor|]. simpl.
    destruct (p c) eqn:E; simpl; [|lia].
    intros Hk. constructor; [done|]. apply IH. lia.
Qed.

Lemma strip_prefix_Some (lit s r : text) :
  strip_prefix lit s = Some r <-> s = lit ++ r.
Proof.
  revert s. induction lit as [|a lit IH]; intros s; simpl.
  - split; congruence.
  - destruct s as [|c s]; [split; discriminate|].
    destruct (Ascii.eqb_spec a c) as [->|Hne].
    + rewrite IH. split; congruence.
    + split; [discriminate | congruence].
Qed.

Lemma strip_prefix_app (lit r : text) : strip_prefix lit (lit ++ r) = Some r.
Proof. by apply strip_prefix_Some. Qed.

Lemma contains_occurs (sub s : text) :
  contains sub s = true <-> occurs sub s.
Proof.
  induction s as [|c s IH]; simpl.
  - destruct (strip_prefix sub []) as [r|] eqn:E.
    + apply strip_prefix_Some in E. split; [|done].
      intros _. exists [], r. done.
    + split; [done|]. intros (pre & post & H).
      symmetry in H. apply app_eq_nil in H as [-> H].
      apply app_eq_nil in H as [-> ->]. discriminate.
  - destruct (strip_prefix sub (c :: s)) as [r|] eqn:E.
    + apply strip_prefix_Some in E. split; [|done].
      intros _. exists [], r. done.
    + rewrite IH. split.
      * intros (pre & post & ->). by exists (c :: pre), post.
      * intros (pre & post & H). destruct pre as [|c' pre].
        -- simpl in H. rewrite H, strip_prefix_app in E. discriminate.
        -- injection H as _ ->. by exists pre, post.
Qed.

(** The jump over a match. *)
Lemma substitute_skip (matcher : text -> option nat) (repl : text)
      (count n : nat) (a s : text) :
  substitute matcher repl count n (length a) (a ++ s)
  = substitute matcher repl count n 0 s.
Proof.
  induction a as [|c a IH]; simpl; [|done].
  destruct s; reflexivity.
Qed.

(** Once [count] replacements are made the rest is copied. *)
Lemma substitute_exhausted (matcher : text -> option nat) (repl : text)
      (count n : nat) (s : text) :
  (count =? 0)%nat || (n <? count)%nat = false ->
  substitute matcher repl count n 0 s = s.
Proof. intros H. destruct s; simpl; [done|]. by rewrite H. Qed.

(** Without a bound the number of replacements made plays no part. *)
Lemma substitute_unbounded (matcher : text -> option nat) (repl : text)
      (n n' skip : nat) (s : text) :
  substitute matcher repl 0 n skip s = substitute matcher repl 0 n' skip s.
Proof.
  revert n n' skip. induction s as [|c s IH]; intros n n' skip; simpl; [done|].
  destruct skip as [|skip]; [|apply IH].
  destruct (matcher (c :: s)); [|by rewrite (IH n n')].
  f_equal. apply IH.
Qed.

Lemma substitute_match (matcher : text -> option nat) (repl : text)
      (count n : nat) (m rest : text) :
  (count =? 0)%nat || (n <? count)%nat = true ->
  m <> [] ->
  matcher (m ++ rest) = Some (length m) ->
  substitute matcher repl count n 0 (m ++ rest)
  = repl ++ substitute matcher repl count (S n) 0 rest.
Proof.
  intros Hc Hm Hmatch. destruct m as [|c m]; [done|].
  simpl in *. rewrite Hc, Hmatch. simpl. by rewrite substitute_skip.
Qed.

(** Where no match starts the text is copied. *)
Lemma substitute_copy (matcher : text -> option nat) (repl : text)
      (count n : nat) (pre s : text) :
  (forall a b, pre = a ++ b -> b <> [] -> matcher (b ++ s) = None) ->
  substitute matcher repl count n 0 (pre ++ s)
  = pre ++ substitute matcher repl count n 0 s.
Proof.
  induction pre as [|c pre IH]; intros H; [done|].
  destruct ((count =? 0)%nat || (n <? count)%nat) eqn:Hc.
  - assert (H0 : matcher (c :: pre ++ s) = None) by (by apply (H [] (c :: pre))).
    simpl. rewrite Hc, H0.
    rewrite IH; [done|].
    intros a b -> Hb. apply (H (c :: a) b); done.
  - by rewrite !substitute_exhausted.
Qed.

Lemma substitute_none (matcher : text -> option nat) (repl : text)
      (count n : nat) (s : text) :
  (forall a b, s = a ++ b -> matcher b = None) ->
  substitute matcher repl count n 0 s = s.
Proof.
  intros H. rewrite <- (app_nil_r s) at 1.
  rewrite substitute_copy; [simpl; by rewrite app_nil_r|].
  intros a b -> _. rewrite app_nil_r. by apply (H a b).
Qed.

End ScanFacts.

(** ** The pattern [kw\W+token+] *)

Section ReFacts.
Import Scan Re.
Variable token : ascii -> bool.

Lemma nonword_then_token_Some (k : nat) (s : text) (n : nat) :
  nonword_then_token token k s = Some n ->
  exists j, (1 <= j <= k)%nat /\
            take_while token (drop j s) <> [] /\
            n = (j + length (take_while token (drop j s)))%nat.
Proof.
  induction k as [|k IH]; simpl; [discriminate|].
  destruct (take_while token (drop (S k) s)) as [|c tok] eqn:E.
  - intros H. destruct (IH H) as (j & Hj & Hne & ->).
    exists j. repeat split; [lia | lia | done].
  - intros [= <-]. exists (S k). rewrite E. repeat split; [lia | lia | done].
Qed.

Lemma nonword_then_token_None (k : nat) (s : text) :
  nonword_then_token token k s = None ->
  forall j, (1 <= j <= k)%nat -> take_while token (drop j s) = [].
Proof.
  induction k as [|k IH]; simpl; [intros _ j; lia|].
  destruct (take_while token (drop (S k) s)) as [|c tok] eqn:E; [|discriminate].
  intros H j Hj. destruct (decide (j = S k)) as [->|]; [done|].
  apply IH; [done | lia].
Qed.

(** Backtracking gives up the longest match last: among the places where
    the token can start, the rightmost one ends furthest. *)
Lemma nonword_then_token_longest (k : nat) (s : text) (n j : nat) :
  nonword_then_token token k s = Some n ->
  (1 <= j <= k)%nat -> take_while token (drop j s) <> [] ->
  (j + length (take_while token (drop j s)) <= n)%nat.
Proof.
  induction k as [|k IH]; simpl; [discriminate|].
  destruct (take_while token (drop (S k) s)) as [|c tok] eqn:E.
  - intros H Hj Hne. destruct (decide (j = S k)) as [->|]; [congruence|].
    apply IH; [done | lia | done].
  - intros [= <-] Hj _. destruct (decide (j = S k)) as [->|Hlt].
    { rewrite E. done. }
    assert (Hsplit : drop j s = take (S k - j) (drop j s) ++ drop (S k) s).
    { rewrite <- (take_drop (S k - j) (drop j s)) at 1.
      rewrite drop_drop. do 2 f_equal. lia. }
    assert (Hlen : (length (take (S k - j) (drop j s)) <= S k - j)%nat)
      by (rewrite length_take; lia).
    revert Hsplit Hlen. generalize (take (S k - j) (drop j s)). intros a -> Hlen.
    destruct (take_while_app_length token a (drop (S k) s)) as [H|H].
    + simpl. lia.
    + rewrite E in H. simpl in *. lia.
Qed.

Variable kw : text.

Lemma Span_nonempty (m : text) : Span token kw m -> m <> [].
Proof.
  intros (nw & tok & -> & Hnw & _ & _ & _) H.
  apply app_eq_nil in H as [_ H]. apply app_eq_nil in H as [H _]. done.
Qed.

(** A span at the front of [s] is a place where the token can start. *)
Lemma Span_prefix_inv (s m rest : text) :
  s = m ++ rest -> Span token kw m ->
  exists s1 j,
    s = kw ++ s1 /\
    (1 <= j <= length (take_while nonword s1))%nat /\
    take_while token (drop j s1) <> [] /\
    (length m <= length kw + (j + length (take_while token (drop j s1))))%nat.
Proof.
  intros -> (nw & tok & -> & Hnw & Hnwall & Htok & Htokall).
  exists (nw ++ tok ++ rest), (length nw).
  assert (Hdrop : drop (length nw) (nw ++ tok ++ rest) = tok ++ rest)
    by apply drop_app_length.
  rewrite Hdrop, (take_while_app token tok rest Htokall).
  repeat split.
  - by rewrite <- !app_assoc.
  - destruct nw; [done | simpl; lia].
  - by apply take_while_prefix_length.
  - destruct tok; done.
  - rewrite !length_app. lia.
Qed.

(** And where the token can start there is a span. *)
Lemma Span_build (s1 : text) (j : nat) :
  (1 <= j <= length (take_while nonword s1))%nat ->
  take_while token (drop j s1) <> [] ->
  Span token kw (kw ++ take j s1 ++ take_while token (drop j s1)) /\
  kw ++ s1 = (kw ++ take j s1 ++ take_while token (drop j s1))
               ++ drop_while token (drop j s1) /\
  length (take j s1) = j.
Proof.
  intros Hj Hne.
  assert (Hlen : (length (take_while nonword s1) <= length s1)%nat).
  { rewrite <- (take_drop_while nonword s1) at 2. rewrite length_app. lia. }
  assert (Htake : length (take j s1) = j) by (rewrite length_take; lia).
  split; [|split; [|done]].
  - exists (take j s1), (take_while token (drop j s1)).
    repeat split; try done.
    + intros H. rewrite H in Htake. simpl in Htake. lia.
    + apply take_take_while. lia.
    + apply take_while_Forall.
  - rewrite <- !app_assoc. f_equal.
    rewrite take_drop_while. by rewrite take_drop.
Qed.

(** What [match_pattern] finds at the front of [s] is a span, the longest
    that starts there. *)
Lemma match_pattern_Some (s : text) (n : nat) :
  match_pattern token kw s = Some n ->
  exists m rest,
    s = m ++ rest /\ length m = n /\ Span token kw m /\
    forall m' rest', s = m' ++ rest' -> Span token kw m' ->
                     (length m' <= n)%nat.
Proof.
  unfold match_pattern.
  destruct (strip_prefix kw s) as [s1|] eqn:Hs; [|discriminate].
  apply strip_prefix_Some in Hs as ->.
  destruct (nonword_then_token token _ s1) as [n1|] eqn:Hn; [|discriminate].
  intros [= <-].
  destruct (nonword_then_token_Some _ _ _ Hn) as (j & Hj & Hne & ->).
  destruct (Span_build s1 j Hj Hne) as (Hspan & Heq & Hlen).
  eexists _, _. split; [exact Heq|]. split; [|split; [exact Hspan|]].
  - rewrite !length_app, Hlen. lia.
  - intros m' rest' Hs' Hspan'.
    destruct (Span_prefix_inv _ _ _ Hs' Hspan') as (s1' & j' & Hk & Hj' & Hne' & Hle).
    apply app_inv_head in Hk as <-.
    pose proof (nonword_then_token_longest _ _ _ j' Hn Hj' Hne'). lia.
Qed.

(** When [match_pattern] finds nothing, no span starts at the front. *)
Lemma match_pattern_None (s m rest : text) :
  match_pattern token kw s = None -> s = m ++ rest -> ~ Span token kw m.
Proof.
  unfold match_pattern. intros H Hs Hspan.
  destruct (Span_prefix_inv _ _ _ Hs Hspan) as (s1 & j & -> & Hj & Hne & _).
  rewrite strip_prefix_app in H.
  destruct (nonword_then_token token _ s1) as [n1|] eqn:Hn; [discriminate|].
  by rewrite (nonword_then_token_None _ _ Hn j Hj) in Hne.
Qed.

Lemma Leftmost_match (pre m rest : text) :
  Leftmost token kw pre m rest ->
  m <> [] /\
  match_pattern token kw (m ++ rest) = Some (length m) /\
  forall a b, pre = a ++ b -> b <> [] ->
              match_pattern token kw (b ++ m ++ rest) = None.
Proof.
  intros [Hspan Hleft]. split; [by eapply Span_nonempty|]. split.
  - destruct (match_pattern token kw (m ++ rest)) as [n|] eqn:E.
    + destruct (match_pattern_Some _ _ E) as (m0 & rest0 & Heq & <- & Hspan0 & Hmax).
      f_equal. apply Nat.le_antisymm.
      * destruct (Hleft pre m0 rest0) as [?|[_ ?]]; [by rewrite Heq | done | lia | done].
      * by apply (Hmax m rest).
    + by destruct (match_pattern_None _ m rest E).
  - intros a b -> Hb.
    destruct (match_pattern token kw (b ++ m ++ rest)) as [n|] eqn:E; [|done].
    destruct (match_pattern_Some _ _ E) as (m0 & rest0 & Heq & _ & Hspan0 & _).
    destruct (Hleft a m0 rest0) as [H|[H _]]; [by rewrite <- app_assoc, Heq | done | |];
      rewrite length_app in H; destruct b; simpl in *; try done; lia.
Qed.

(** Every text either holds no span or splits at its leftmost match. *)
Lemma NoSpan_or_Leftmost (s : text) :
  NoSpan token kw s \/
  exists pre m rest, s = pre ++ m ++ rest /\ Leftmost token kw pre m rest.
Proof.
  induction s as [|c s IH].
  - left. intros pre m rest H Hspan.
    apply Span_nonempty in Hspan.
    symmetry in H. apply app_eq_nil in H as [_ H].
    apply app_eq_nil in H as [H _]. done.
  - destruct (match_pattern token kw (c :: s)) as [n|] eqn:E.
    + right. destruct (match_pattern_Some _ _ E) as (m & rest & Heq & <- & Hspan & Hmax).
      exists [], m, rest. split; [done|]. split; [done|].
      intros pre' m' rest' H Hspan'. destruct pre' as [|c' pre']; [|left; simpl; lia].
      right. split; [done|]. apply (Hmax m' rest'); [|done].
      by rewrite Heq.
    + destruct IH as [IH|(pre & m & rest & -> & Hspan & Hleft)].
      * left. intros pre m rest H Hspan. destruct pre as [|c' pre].
        -- by apply (match_pattern_None _ m rest E).
        -- injection H as _ ->. by apply (IH pre m rest).
      * right. exists (c :: pre), m, rest. split; [done|]. split; [done|].
        intros pre' m' rest' H Hspan'. destruct pre' as [|c' pre'].
        -- by destruct (match_pattern_None _ m' rest' E).
        -- injection H as _ H. simpl.
           destruct (Hleft pre' m' rest' H Hspan') as [?|[? ?]]; [left|right]; lia.
Qed.

Lemma NoSpan_match (s : text) :
  NoSpan token kw s -> forall a b, s = a ++ b -> match_pattern token kw b = None.
Proof.
  intros H a b ->.
  destruct (match_pattern token kw b) as [n|] eqn:E; [|done].
  destruct (match_pattern_Some _ _ E) as (m & rest & -> & _ & Hspan & _).
  by destruct (H a m rest).
Qed.

Lemma Leftmost_here (m rest : text) :
  match_pattern token kw (m ++ rest) = Some (length m) ->
  Leftmost token kw [] m rest.
Proof.
  intros E.
  destruct (match_pattern_Some _ _ E) as (m0 & rest0 & Heq & Hlen & Hspan & Hmax).
  assert (m0 = m) as ->.
  { apply (f_equal (take (length m))) in Heq.
    rewrite take_app_length in Heq. rewrite <- Hlen in Heq.
    by rewrite take_app_length in Heq. }
  split; [done|].
  intros pre' m' rest' H Hspan'. destruct pre' as [|c' pre']; [|left; simpl; lia].
  right. split; [done|]. by apply (Hmax m' rest').
Qed.

Lemma Leftmost_cons (c : ascii) (pre m rest : text) :
  match_pattern token kw (c :: pre ++ m ++ rest) = None ->
  Leftmost token kw pre m rest ->
  Leftmost token kw (c :: pre) m rest.
Proof.
  intros E [Hspan Hleft]. split; [done|].
  intros pre' m' rest' H Hspan'. destruct pre' as [|c' pre'].
  - by destruct (match_pattern_None _ m' rest' E).
  - injection H as _ H. simpl.
    destruct (Hleft pre' m' rest' H Hspan') as [?|[? ?]]; [left|right]; lia.
Qed.

(** The first match that the cursor meets is the leftmost span. *)
Lemma first_match_Leftmost (pre m rest : text) :
  first_match (match_pattern token kw) (pre ++ m ++ rest)
  = Some (length pre, length m) ->
  Leftmost token kw pre m rest.
Proof.
  induction pre as [|c pre IH].
  - simpl. intros H. apply Leftmost_here.
    destruct (m ++ rest) as [|c s]; simpl in H;
      destruct (match_pattern token kw _) as [n|]; try congruence.
    destruct (first_match _ s) as [[i l]|]; discriminate.
  - simpl. destruct (match_pattern token kw (c :: pre ++ m ++ rest)) eqn:E;
      [discriminate|].
    destruct (first_match _ (pre ++ m ++ rest)) as [[i l]|] eqn:E';
      [|discriminate].
    intros [= -> ->]. apply Leftmost_cons; [done|]. by apply IH.
Qed.

Lemma first_match_NoSpan (s : text) :
  first_match (match_pattern token kw) s = None -> NoSpan token kw s.
Proof.
  induction s as [|c s IH]; simpl.
  - destruct (match_pattern token kw []) eqn:E; [discriminate|].
    intros _ pre m rest H. symmetry in H.
    apply app_eq_nil in H as [-> H]. by apply (match_pattern_None _ m rest E).
  - destruct (match_pattern token kw (c :: s)) eqn:E; [discriminate|].
    destruct (first_match _ s) as [[i l]|]; [discriminate|].
    intros _ pre m rest H. destruct pre as [|c' pre].
    + by apply (match_pattern_None _ m rest E).
    + injection H as _ ->. by apply (IH eq_refl pre m rest).
Qed.

(** The substitution copies the text up to the leftmost match, puts the
    replacement in its place and goes on behind it. *)
Lemma substitute_Leftmost (repl : text) (count n : nat) (pre m rest : text) :
  Leftmost token kw pre m rest ->
  (count =? 0)%nat || (n <? count)%nat = true ->
  substitute (match_pattern token kw) repl count n 0 (pre ++ m ++ rest)
  = pre ++ repl ++ substitute (match_pattern token kw) repl count (S n) 0 rest.
Proof.
  intros H Hc. destruct (Leftmost_match _ _ _ H) as (Hm & Hmatch & Hpre).
  rewrite substitute_copy by done.
  by rewrite substitute_match.
Qed.

Lemma substitute_NoSpan (repl : text) (count n : nat) (s : text) :
  NoSpan token kw s ->
  substitute (match_pattern token kw) repl count n 0 s = s.
Proof. intros H. apply substitute_none. by apply NoSpan_match. Qed.

End ReFacts.

(** ** RedactingFilter *)

Section RedactingFilterFacts.
Import Scan Re RedactingFilter.

Lemma string_of_text_of (s : string) : string_of (text_of s) = s.
Proof. apply string_of_list_ascii_of_string. Qed.

Lemma text_of_string_of (s : text) : text_of (string_of s) = s.
Proof. apply list_ascii_of_string_of_list_ascii. Qed.

Lemma text_of_app (a b : string) : text_of (a +:+ b) = text_of a ++ text_of b.
Proof. induction a as [|c a IH]; simpl; [done|]. by rewrite IH. Qed.

Lemma text_of_replacement (pattern : string) :
  text_of (replacement pattern) = text_of pattern ++ text_of " ***** ".
Proof. unfold replacement. by rewrite text_of_app. Qed.

Lemma not_occurs (sub s : text) : contains sub s = false -> ~ occurs sub s.
Proof. intros H Ho. apply contains_occurs in Ho. congruence. Qed.

(** A span starts with the keyword, letter for letter. *)
Lemma Span_occurs (token : ascii -> bool) (kw s pre m rest : text) :
  s = pre ++ m ++ rest -> Span token kw m -> occurs kw s.
Proof.
  intros -> (nw & tok & -> & _). exists pre, (nw ++ tok ++ rest).
  by rewrite <- !app_assoc.
Qed.

Lemma redact_one_text (pattern : string) (s : text) :
  redact_one pattern (string_of s)
  = string_of (substitute (match_here (text_of pattern))
                          (text_of pattern ++ text_of " ***** ") 2 0 0 s).
Proof.
  unfold redact_one, sub, IGNORECASE.
  by rewrite text_of_string_of, text_of_replacement.
Qed.

Lemma redact_snoc (patterns : list string) (pattern msg : string) :
  redact (mk (patterns ++ [pattern])) msg
  = redact_one pattern (redact (mk patterns) msg).
Proof. unfold redact. simpl. by rewrite fold_left_app. Qed.

(** C4, as the code has it: a message without a span of the keyword is
    left as it is; in a message with one or two spans (the keyword, one or
    more non-word characters, then the longest run of characters that are
    neither white space nor a plus sign; leftmost first, without overlap)
    each span becomes the keyword, a space, five asterisks and a space, and
    the text around the spans is kept; the patterns are applied in list
    order, each to the output of the one before. *)
Theorem redact_replaces_spans
        (pattern : string) (s0 pre m rest pre1 m1 pre2 m2 rest2 : text)
        (patterns : list string) (msg : string) :
  plain pattern = true ->
  NoSpan tokchar (text_of pattern) s0 ->
  Leftmost tokchar (text_of pattern) pre m rest ->
  NoSpan tokchar (text_of pattern) rest ->
  Leftmost tokchar (text_of pattern) pre1 m1 (pre2 ++ m2 ++ rest2) ->
  Leftmost tokchar (text_of pattern) pre2 m2 rest2 ->
  NoSpan tokchar (text_of pattern) rest2 ->
  redact_one pattern (string_of s0) = string_of s0 /\
  redact_one pattern (string_of (pre ++ m ++ rest))
  = string_of (pre ++ (text_of pattern ++ text_of " ***** ") ++ rest) /\
  redact_one pattern (string_of (pre1 ++ m1 ++ pre2 ++ m2 ++ rest2))
  = string_of (pre1 ++ (text_of pattern ++ text_of " ***** ")
                 ++ pre2 ++ (text_of pattern ++ text_of " ***** ") ++ rest2) /\
  redact (mk (patterns ++ [pattern])) msg
  = redact_one pattern (redact (mk patterns) msg) /\
  redact (mk []) msg = msg.
Proof.
  intros _ H0 H1 Hrest H21 H22 Hrest2.
  rewrite !redact_one_text. unfold match_here. repeat split.
  - by rewrite substitute_NoSpan.
  - rewrite (substitute_Leftmost _ _ _ _ _ _ _ _ H1) by done.
    by rewrite substitute_NoSpan.
  - rewrite (substitute_Leftmost _ _ _ _ _ _ _ _ H21) by done.
    rewrite (substitute_Leftmost _ _ _ _ _ _ _ _ H22) by done.
    by rewrite substitute_NoSpan.
  - apply redact_snoc.
Qed.

Lemma redact_replaces_spans_witness :
  redact_one "password" "nothing to hide" = "nothing to hide" /\
  redact_one "password" "This is my password: pass123" = "This is my password ***** " /\
  redact_one "password" "password=a, password=b!" = "password *****  password ***** " /\
  redact (mk (["token"] ++ ["password"])) "token: t password: p"
  = redact_one "password" (redact (mk ["token"]) "token: t password: p") /\
  redact (mk []) "token: t password: p" = "token: t password: p".
Proof.
  refine (redact_replaces_spans "password"
            (text_of "nothing to hide")
            (text_of "This is my ") (text_of "password: pass123") []
            [] (text_of "password=a,") (text_of " ") (text_of "password=b!") []
            ["token"] "token: t password: p" _ _ _ _ _ _ _).
  - reflexivity.
  - apply first_match_NoSpan. vm_compute. reflexivity.
  - apply first_match_Leftmost. vm_compute. reflexivity.
  - apply first_match_NoSpan. vm_compute. reflexivity.
  - apply first_match_Leftmost. vm_compute. reflexivity.
  - apply first_match_Leftmost. vm_compute. reflexivity.
  - apply first_match_NoSpan. vm_compute. reflexivity.
Defined.

(** C4 as worded fails where the value holds a plus sign: the pattern of
    the code ends the token before it, so the text from the plus sign on
    stays in the message. *)
Lemma redact_token_stops_at_plus :
  redact (mk ["password"]) "password: a+b" = "password ***** +b" /\
  Worded.redact ["password"] "password: a+b" = "password ***** " /\
  redact (mk ["password"]) "password: a+b" <> Worded.redact ["password"] "password: a+b".
Proof.
  split; [|split].
  - vm_compute. reflexivity.
  - vm_compute. reflexivity.
  - intros H. vm_compute in H. discriminate.
Qed.

(** C5: with the one pattern "password", [filter] returns [True] on the
    message "This is my password: pass123" and leaves a message that holds
    "password *****" and does not hold "pass123". *)
Theorem password_is_redacted (module : string) (levelno : Z) :
  let r := filter (mk ["password"])
                  (mkRecord module levelno "This is my password: pass123") in
  fst r = true /\
  occurs (text_of "password *****") (text_of (msg (snd r))) /\
  ~ occurs (text_of "pass123") (text_of (msg (snd r))).
Proof.
  simpl. split; [done|]. split.
  - apply contains_occurs. vm_compute. reflexivity.
  - apply not_occurs. vm_compute. reflexivity.
Qed.

(** C10: [re.IGNORECASE] sits where [re.sub] takes [count], so two matches
    are replaced and the text behind the second one is kept as it is,
    further matches included; and no flag is set, so a message in which the
    keyword does not occur with exactly its letters is left unchanged. *)
Theorem redact_first_two_exact_case
        (pattern : string) (pre1 m1 pre2 m2 rest other : text) :
  plain pattern = true ->
  Leftmost tokchar (text_of pattern) pre1 m1 (pre2 ++ m2 ++ rest) ->
  Leftmost tokchar (text_of pattern) pre2 m2 rest ->
  ~ occurs (text_of pattern) other ->
  redact_one pattern (string_of (pre1 ++ m1 ++ pre2 ++ m2 ++ rest))
  = string_of (pre1 ++ text_of (replacement pattern)
                 ++ pre2 ++ text_of (replacement pattern) ++ rest) /\
  redact_one pattern (string_of other) = string_of other /\
  redact_one "password" "password: a password: b password: c"
  = "password *****  password *****  password: c" /\
  redact_one "password" "Password: a PASSWORD: b" = "Password: a PASSWORD: b".
Proof.
  intros _ H1 H2 Hother.
  rewrite !redact_one_text, text_of_replacement. unfold match_here.
  split; [|split; [|split]].
  - rewrite (substitute_Leftmost _ _ _ _ _ _ _ _ H1) by done.
    rewrite (substitute_Leftmost _ _ _ _ _ _ _ _ H2) by done.
    by rewrite substitute_exhausted.
  - rewrite substitute_NoSpan; [done|].
    intros pre m rest' Heq Hspan. apply Hother.
    by eapply Span_occurs.
  - vm_compute. reflexivity.
  - vm_compute. reflexivity.
Qed.

Lemma redact_first_two_exact_case_witness :
  redact_one "password" "password: a password: b password: c"
  = "password *****  password *****  password: c" /\
  redact_one "password" "PASSWORD: pass123" = "PASSWORD: pass123".
Proof.
  destruct (redact_first_two_exact_case "password"
              [] (text_of "password: a") (text_of " ") (text_of "password: b")
              (text_of " password: c") (text_of "PASSWORD: pass123"))
    as (H1 & H2 & _).
  - reflexivity.
  - apply first_match_Leftmost. vm_compute. reflexivity.
  - apply first_match_Leftmost. vm_compute. reflexivity.
  - apply not_occurs. vm_compute. reflexivity.
  - split; [exact H1 | exact H2].
Defined.

End RedactingFilterFacts.

(** ** [str.replace] and [SimpleLogger.hash] *)

Section HashFacts.
Import Scan Str SimpleLogger.

Lemma match_literal_Some (old s : text) (n : nat) :
  match_literal old s = Some n -> exists r, s = old ++ r /\ n = length old.
Proof.
  unfold match_literal. destruct (strip_prefix old s) as [r|] eqn:E; [|discriminate].
  apply strip_prefix_Some in E. intros [= <-]. eauto.
Qed.

Lemma match_literal_app (old r : text) :
  match_literal old (old ++ r) = Some (length old).
Proof. unfold match_literal. by rewrite strip_prefix_app. Qed.

Lemma match_literal_None (old s : text) :
  ~ occurs old s -> forall a b, s = a ++ b -> match_literal old b = None.
Proof.
  intros H a b ->. destruct (match_literal old b) as [n|] eqn:E; [|done].
  destruct (match_literal_Some _ _ _ E) as (r & -> & _).
  destruct H. by exists a, r.
Qed.

Lemma First_match (old pre rest : text) :
  First old pre rest ->
  forall a b, pre = a ++ b -> b <> [] ->
              match_literal old (b ++ old ++ rest) = None.
Proof.
  intros H a b -> Hb.
  destruct (match_literal old (b ++ old ++ rest)) as [n|] eqn:E; [|done].
  destruct (match_literal_Some _ _ _ E) as (r & Heq & _).
  specialize (H a r). rewrite <- app_assoc, Heq in H. specialize (H eq_refl).
  rewrite length_app in H. destruct b; simpl in *; [done | lia].
Qed.

Lemma First_not_before (old pre rest : text) :
  old <> [] -> First old pre rest -> ~ occurs old pre.
Proof.
  intros Hold H (x & y & ->).
  specialize (H x (y ++ old ++ rest)). rewrite <- !app_assoc in H.
  specialize (H eq_refl). rewrite !length_app in H.
  destruct old; simpl in *; [done | lia].
Qed.

(** Every text either does not hold [old] or splits at its leftmost
    occurrence. *)
Lemma occurs_First (old s : text) :
  ~ occurs old s \/ exists pre rest, s = pre ++ old ++ rest /\ First old pre rest.
Proof.
  induction s as [|c s IH].
  - destruct (strip_prefix old []) as [r|] eqn:E.
    + apply strip_prefix_Some in E. right. exists [], r. split; [done|].
      intros pre' rest' _. simpl. lia.
    + left. intros (pre & post & H). symmetry in H.
      apply app_eq_nil in H as [-> H].
      apply app_eq_nil in H as [-> ->]. discriminate.
  - destruct (strip_prefix old (c :: s)) as [r|] eqn:E.
    + apply strip_prefix_Some in E. right. exists [], r. split; [done|].
      intros pre' rest' _. simpl. lia.
    + destruct IH as [IH|(pre & rest & -> & Hfirst)].
      * left. intros (pre & post & H). destruct pre as [|c' pre].
        -- simpl in H. rewrite H, strip_prefix_app in E. discriminate.
        -- injection H as _ ->. apply IH. by exists pre, post.
      * right. exists (c :: pre), rest. split; [done|].
        intros pre' rest' H. destruct pre' as [|c' pre'].
        -- assert (strip_prefix old ((c :: pre) ++ old ++ rest) = Some rest')
             by (by apply strip_prefix_Some).
           change ((c :: pre) ++ old ++ rest) with (c :: pre ++ old ++ rest) in *.
           congruence.
        -- injection H as _ H. apply Hfirst in H. simpl. lia.
Qed.

(** The first match that the cursor meets is the leftmost occurrence. *)
Lemma first_match_First (old pre rest : text) :
  first_match (match_literal old) (pre ++ old ++ rest)
  = Some (length pre, length old) ->
  First old pre rest.
Proof.
  induction pre as [|c pre IH].
  - intros _ pre' rest' _. simpl. lia.
  - simpl. destruct (match_literal old (c :: pre ++ old ++ rest)) eqn:E;
      [discriminate|].
    destruct (first_match _ (pre ++ old ++ rest)) as [[i l]|] eqn:E';
      [|discriminate].
    intros [= -> ->] pre' rest' H. destruct pre' as [|c' pre'].
    + simpl in H. rewrite H, match_literal_app in E. discriminate.
    + injection H as _ H. apply (IH eq_refl) in H. simpl. lia.
Qed.

Lemma replace_text_none (s old new : text) :
  old <> [] -> ~ occurs old s -> replace_text s old new = s.
Proof.
  intros Hold H. destruct old as [|c old]; [done|].
  unfold replace_text. apply substitute_none. by apply match_literal_None.
Qed.

Lemma replace_text_First (old new pre rest : text) :
  old <> [] -> First old pre rest ->
  replace_text (pre ++ old ++ rest) old new
  = pre ++ new ++ replace_text rest old new.
Proof.
  intros Hold H. destruct old as [|c old]; [done|].
  unfold replace_text.
  rewrite substitute_copy by (by apply First_match).
  rewrite substitute_match; [|done|done|apply match_literal_app].
  by rewrite (substitute_unbounded _ _ 1 0).
Qed.

(** A text without the characters of [mask] cannot reach into [mask]. *)
Lemma prefix_before_mask (h y a mask b : text) :
  mask <> [] -> (forall c, In c mask -> ~ In c h) ->
  h ++ y = a ++ mask ++ b -> exists y', a = h ++ y'.
Proof.
  intros Hmask Hdisj. revert a.
  induction h as [|h0 h IH]; intros a H; [by exists a|].
  destruct a as [|a0 a].
  - destruct mask as [|c0 mask]; [done|]. injection H as -> _.
    destruct (Hdisj c0); simpl; auto.
  - injection H as -> H.
    destruct IH with (a := a) as [y' ->]; [|done|by exists y'].
    intros c Hc Hin. apply (Hdisj c Hc). by right.
Qed.

Lemma occurs_behind_mask (h mask b : text) :
  h <> [] -> (forall c, In c mask -> ~ In c h) ->
  occurs h (mask ++ b) -> occurs h b.
Proof.
  intros Hh. induction mask as [|c0 mask IH]; intros Hdisj; [done|].
  intros (x & y & H). destruct x as [|x0 x].
  - destruct h as [|h0 h]; [done|]. injection H as <- _.
    destruct (Hdisj c0); simpl; auto.
  - injection H as _ H. apply IH.
    + intros c Hc. apply Hdisj. by right.
    + by exists x, y.
Qed.

(** An occurrence in [a ++ mask ++ b] lies in [a] or in [b]. *)
Lemma occurs_around_mask (h a mask b : text) :
  h <> [] -> mask <> [] -> (forall c, In c mask -> ~ In c h) ->
  occurs h (a ++ mask ++ b) -> occurs h a \/ occurs h b.
Proof.
  intros Hh Hmask Hdisj. induction a as [|a0 a IH].
  - right. by apply (occurs_behind_mask h mask b).
  - intros (x & y & H). destruct x as [|x0 x].
    + left. symmetry in H.
      destruct (prefix_before_mask h y (a0 :: a) mask b) as [y' ->]; try done.
      by exists [], y'.
    + injection H as _ H.
      destruct IH as [(x' & y' & ->)|Hb]; [by exists x, y| |by right].
      left. by exists (a0 :: x'), y'.
Qed.

(** Replacing [old] brings no occurrence of a text [h] that shares no
    character with the mask. *)
Lemma replace_text_keeps_clear (h old new : text) :
  h <> [] -> old <> [] -> new <> [] -> (forall c, In c new -> ~ In c h) ->
  forall s, ~ occurs h s -> ~ occurs h (replace_text s old new).
Proof.
  intros Hh Hold Hnew Hdisj s.
  induction s as [s IH] using (induction_ltof1 _ (@length ascii)).
  unfold ltof in IH. intros Hs.
  destruct (occurs_First old s) as [Hno|(pre & rest & -> & Hfirst)].
  - by rewrite replace_text_none.
  - rewrite replace_text_First by done. intros Ho.
    apply occurs_around_mask in Ho as [(x & y & ->)|Ho]; try done.
    + apply Hs. exists x, (y ++ old ++ rest). by rewrite <- !app_assoc.
    + revert Ho. apply IH.
      * rewrite !length_app. destruct old; simpl in *; [done | lia].
      * intros (x & y & ->). apply Hs.
        exists (pre ++ old ++ x), y. by rewrite <- !app_assoc.
Qed.

(** After the replacement [old] itself is gone. *)
Lemma replace_text_clears (old new : text) :
  old <> [] -> new <> [] -> (forall c, In c new -> ~ In c old) ->
  forall s, ~ occurs old (replace_text s old new).
Proof.
  intros Hold Hnew Hdisj s.
  induction s as [s IH] using (induction_ltof1 _ (@length ascii)).
  unfold ltof in IH.
  destruct (occurs_First old s) as [Hno|(pre & rest & -> & Hfirst)].
  - by rewrite replace_text_none.
  - rewrite replace_text_First by done. intros Ho.
    apply occurs_around_mask in Ho as [Ho|Ho]; try done.
    + by apply (First_not_before old pre rest).
    + revert Ho. apply IH.
      rewrite !length_app. destruct old; simpl in *; [done | lia].
Qed.

Lemma maskable_text (h : string) :
  maskable h ->
  text_of h <> [] /\ forall c, In c (text_of "*****") -> ~ In c (text_of h).
Proof.
  intros [Hne Hstar]. split.
  - destruct h; [done | discriminate].
  - intros c Hc. simpl in Hc.
    assert (c = "*"%char) as -> by (intuition congruence). done.
Qed.

Lemma text_of_replace (s old new : string) :
  text_of (Str.replace s old new)
  = replace_text (text_of s) (text_of old) (text_of new).
Proof. unfold Str.replace. apply text_of_string_of. Qed.

Lemma hash_cons (msg h : string) (hs : list string) :
  call_msg (hash msg (Some (h :: hs)))
  = call_msg (hash (Str.replace msg h "*****") (Some hs)).
Proof. reflexivity. Qed.

(** A literal that is gone stays gone while the others are replaced. *)
Lemma hash_keeps_clear (h : string) (hs : list string) :
  maskable h -> Forall maskable hs ->
  forall msg, ~ occurs (text_of h) (text_of msg) ->
              ~ occurs (text_of h) (text_of (call_msg (hash msg (Some hs)))).
Proof.
  intros Hh Hhs. induction Hhs as [|h' hs Hh' _ IH]; intros msg Hmsg; [done|].
  rewrite hash_cons. apply IH. rewrite text_of_replace.
  destruct (maskable_text h Hh) as [Hne Hdisj].
  destruct (maskable_text h' Hh') as [Hne' _].
  by apply replace_text_keeps_clear.
Qed.

Lemma hash_clears (hs : list string) :
  Forall maskable hs ->
  forall msg, Forall (fun h => ~ occurs (text_of h)
                                   (text_of (call_msg (hash msg (Some hs))))) hs.
Proof.
  induction 1 as [|h hs Hh Hhs IH]; intros msg; [constructor|].
  constructor.
  - rewrite hash_cons. apply hash_keeps_clear; [done..|].
    rewrite text_of_replace.
    destruct (maskable_text h Hh) as [Hne Hdisj].
    by apply replace_text_clears.
  - rewrite hash_cons. apply IH.
Qed.



End HashFacts.

(** ** get_logger *)

Section GetLoggerFacts.
Import Logging.

Lemma getLogger_spec (name : string) (w : world) :
  is_Some (loggers w !! root_name) ->
  exists l w1,
    getLogger name w = (Return l, w1) /\
    filters w1 = filters w /\ handlers w1 = handlers w /\
    next_loc w1 = next_loc w /\ LOGGERS w1 = LOGGERS w /\
    writable w1 = writable w /\ is_Some (loggers w1 !! l).
Proof.
  intros Hroot. unfold getLogger.
  destruct (bool_decide (name = "") || bool_decide (name = root_name)).
  - exists root_name, w. done.
  - unfold mbind, M_bind, get_world. destruct (loggers w !! name) eqn:E.
    + exists name, w. rewrite E. split; [done|]. repeat split; try done. 
    + eexists name, _. split; [reflexivity|]. simpl. repeat split; try done.
      rewrite lookup_insert_eq. done.
Qed.

Lemma checkLevel_eq (lv : level_arg) (w : world) :
  checkLevel lv w
  = (match lv with
     | LevelInt k => Return k
     | LevelName s => match nameToLevel w !! s with
                      | Some k => Return k
                      | None => Raise ValueError
                      end
     end, w).
Proof.
  unfold checkLevel. destruct lv as [k|s]; [done|].
  unfold mbind, M_bind, get_world. by destruct (nameToLevel w !! s).
Qed.

Lemma elem_of_add_once (x : loc) (xs : list loc) : x ∈ add_once x xs.
Proof.
  unfold add_once. case_bool_decide; [done|]. apply elem_of_app. right.
  by apply list_elem_of_singleton.
Qed.

Lemma elem_of_add_once_mono (x y : loc) (xs : list loc) :
  y ∈ xs -> y ∈ add_once x xs.
Proof.
  unfold add_once. case_bool_decide; [done|]. intros. apply elem_of_app. by left.
Qed.

Lemma bind_step {A B} (m : M A) (f : A -> M B) (w w1 : world) (a : A) :
  m w = (Return a, w1) -> (m ≫= f) w = f a w1.
Proof. unfold mbind, M_bind. by intros ->. Qed.

Lemma bind_assoc {A B C} (m : M A) (f : A -> M B) (g : B -> M C) (w : world) :
  ((m ≫= f) ≫= g) w = (m ≫= (fun a => f a ≫= g)) w.
Proof. unfold mbind, M_bind. by destruct (m w) as [[a|e] w1]. Qed.

Lemma world_ok_fresh (w : world) (k : nat) :
  world_ok w -> (next_loc w <= k)%nat ->
  filters w !! k = None /\ handlers w !! k = None.
Proof.
  intros (Hf & Hh & _) Hk. split.
  - destruct (filters w !! k) eqn:E; [|done].
    assert (k < next_loc w)%nat by (apply Hf; eauto). lia.
  - destruct (handlers w !! k) eqn:E; [|done].
    assert (k < next_loc w)%nat by (apply Hh; eauto). lia.
Qed.

(** Normal form of a world that is given by its fields. *)
Ltac norm :=
  cbv beta iota delta [filters handlers loggers next_loc nameToLevel writable
      LOGGERS with_filters with_handlers with_loggers with_next_loc
      with_nameToLevel with_LOGGERS].

(** One call that returns, [Hcl] telling what [checkLevel] gives. *)
Ltac step Hcl :=
  first [ erewrite bind_step by reflexivity
        | erewrite bind_step by (apply Hcl; reflexivity)
        | rewrite bind_assoc ];
  norm.

Ltac lookups :=
  repeat first [ rewrite lookup_alter_ne by lia
               | rewrite lookup_insert_ne by lia
               | rewrite lookup_alter_eq
               | rewrite lookup_insert_eq ].

(** C8: a first call with [console=True], in a world where the level is
    known and the log file (if one is asked for) can be opened, returns a
    logger that has a new stream handler with the formatter and exactly one
    filter, a new [DuplicateFilter] in its initial state; that has among
    its own filters another new [DuplicateFilter] in its initial state,
    under a location of its own; whose level is the level asked for; and
    whose [propagate] is [False]. *)
Theorem get_logger_console (name : string) (a : args) (w : world) (n : Z) :
  world_ok w ->
  LOGGERS w !! name = None ->
  console a = true ->
  requested_level name (level a) w = Some n ->
  (forall path, truthy_filename (filename a) = Some path -> path ∈ writable w) ->
  exists l w' lo h ho f1 f2,
    get_logger name a w = (Return l, w') /\
    loggers w' !! l = Some lo /\
    h ∈ l_handlers lo /\ handlers w !! h = None /\
    handlers w' !! h = Some ho /\
    h_kind ho = StreamHandler /\ h_formatter ho = Some log_formatter /\
    h_filters ho = [f1] /\
    filters w !! f1 = None /\
    filters w' !! f1 = Some (DuplicateFilterObj DuplicateFilter.new) /\
    f2 ∈ l_filters lo /\ filters w !! f2 = None /\
    filters w' !! f2 = Some (DuplicateFilterObj DuplicateFilter.new) /\
    f1 <> f2 /\
    l_level lo = n /\ l_propagate lo = false.
Proof.
  intros Hok Hnone Hconsole Hlevel Hfile.
  destruct (getLogger_spec name w (proj2 (proj2 Hok)))
    as (l & w1 & Hget & Hfs & Hhs & Hnext & HL & Hw & [lo0 Hlo0]).
  unfold requested_level in Hlevel. rewrite Hget in Hlevel. simpl in Hlevel.
  pose proof (world_ok_fresh w (next_loc w) Hok (Nat.le_refl _)) as [_ Hh0].
  pose proof (world_ok_fresh w (S (next_loc w)) Hok (Nat.le_succ_diag_r _)) as [Hf1 _].
  assert (Hf2 : filters w !! S (S (next_loc w)) = None)
    by (apply (world_ok_fresh w); [done | lia]).
  assert (Hcl : forall w0, nameToLevel w0 = nameToLevel w1 ->
                           checkLevel (level a) w0 = (Return n, w0)).
  { intros w0 E. rewrite checkLevel_eq, E. f_equal.
    destruct (level a) as [k|s]; [congruence | by rewrite Hlevel]. }
  clear Hok Hlevel.
  exists l.
  unfold get_logger.
  rewrite (bind_step get_world _ w w w eq_refl), Hnone.
  rewrite (bind_step _ _ _ _ _ Hget), Hconsole. clear Hget Hnone.
  destruct w as [fs0 hs0 ls0 nx0 tbl0 wr0 LG0].
  destruct w1 as [fs hs ls nx tbl wr LG].
  cbv beta iota delta [filters handlers loggers next_loc nameToLevel writable
      LOGGERS] in *.
  subst fs hs nx LG wr.
  unfold when, Logger_setLevel, Handler_setLevel, new_RotatingFileHandler.
  repeat step Hcl.
  destruct (mask_sensitive a); repeat step Hcl;
    (destruct (truthy_filename (filename a)) as [path|] eqn:Hpath;
     [ repeat step Hcl;
       rewrite bool_decide_eq_true_2 by (by apply Hfile);
       repeat step Hcl
     | repeat step Hcl]).
  all: eexists _, _, nx0, _, (S nx0), (S (S nx0)).
  all: split; [reflexivity|]; norm.
  all: split; [lookups; rewrite Hlo0; reflexivity|].
  all: cbn [l_handlers l_filters l_level l_propagate].
  all: split; [eauto using elem_of_add_once, elem_of_add_once_mono|].
  all: split; [done|].
  all: split; [lookups; reflexivity|].
  all: cbn [h_kind h_formatter h_filters].
  all: split; [done|].
  all: split; [done|].
  all: split; [reflexivity|].
  all: split; [done|].
  all: split; [lookups; reflexivity|].
  all: split; [eauto using elem_of_add_once, elem_of_add_once_mono|].
  all: split; [done|].
  all: split; [lookups; reflexivity|].
  all: split; [lia|done].
Qed.

Lemma initial_world_ok : world_ok initial_world.
Proof.
  repeat split.
  - intros l [x H]. unfold initial_world, filters in H.
    by rewrite lookup_empty in H.
  - intros l [x H]. unfold initial_world, handlers in H.
    by rewrite lookup_empty in H.
  - vm_compute. eauto.
Qed.

Lemma get_logger_console_witness :
  exists l w' lo h ho f1 f2,
    get_logger "x" default_args initial_world = (Return l, w') /\
    loggers w' !! l = Some lo /\
    h ∈ l_handlers lo /\ handlers initial_world !! h = None /\
    handlers w' !! h = Some ho /\
    h_kind ho = StreamHandler /\ h_formatter ho = Some log_formatter /\
    h_filters ho = [f1] /\
    filters initial_world !! f1 = None /\
    filters w' !! f1 = Some (DuplicateFilterObj DuplicateFilter.new) /\
    f2 ∈ l_filters lo /\ filters initial_world !! f2 = None /\
    filters w' !! f2 = Some (DuplicateFilterObj DuplicateFilter.new) /\
    f1 <> f2 /\
    l_level lo = 20 /\ l_propagate lo = false.
Proof.
  apply (get_logger_console "x" default_args initial_world 20).
  - exact initial_world_ok.
  - reflexivity.
  - reflexivity.
  - reflexivity.
  - intros path H. simpl in H. discriminate.
Defined.

(** A first call returns whenever the level is known and the log file, if
    one is asked for, can be opened. *)
Lemma get_logger_returns (name : string) (a : args) (w : world) (n : Z) :
  world_ok w ->
  LOGGERS w !! name = None ->
  requested_level name (level a) w = Some n ->
  (forall path, truthy_filename (filename a) = Some path -> path ∈ writable w) ->
  exists l w', get_logger name a w = (Return l, w').
Proof.
  intros Hok Hnone Hlevel Hfile.
  destruct (getLogger_spec name w (proj2 (proj2 Hok)))
    as (l & w1 & Hget & Hfs & Hhs & Hnext & HL & Hw & _).
  unfold requested_level in Hlevel. rewrite Hget in Hlevel. simpl in Hlevel.
  assert (Hcl : forall w0, nameToLevel w0 = nameToLevel w1 ->
                           checkLevel (level a) w0 = (Return n, w0)).
  { intros w0 E. rewrite checkLevel_eq, E. f_equal.
    destruct (level a) as [k|s]; [congruence | by rewrite Hlevel]. }
  clear Hok Hlevel.
  exists l.
  unfold get_logger.
  rewrite (bind_step get_world _ w w w eq_refl), Hnone.
  rewrite (bind_step _ _ _ _ _ Hget). clear Hget Hnone.
  destruct w as [fs0 hs0 ls0 nx0 tbl0 wr0 LG0].
  destruct w1 as [fs hs ls nx tbl wr LG].
  cbv beta iota delta [filters handlers loggers next_loc nameToLevel writable
      LOGGERS] in *.
  subst fs hs nx LG wr.
  unfold when, Logger_setLevel, Handler_setLevel, new_RotatingFileHandler.
  destruct (console a); repeat step Hcl;
    (destruct (mask_sensitive a); repeat step Hcl;
     (destruct (truthy_filename (filename a)) as [path|] eqn:Hpath;
      [ repeat step Hcl;
        rewrite bool_decide_eq_true_2 by (by apply Hfile);
        repeat step Hcl
      | repeat step Hcl])).
  all: eexists; reflexivity.
Qed.

(** C9, as the code has it: a first call with [mask_sensitive=True]
    returns a logger that has among its filters a new [RedactingFilter]
    whose patterns are the given list when one is given and is not empty,
    and "password", "token", "apikey", "secret" when none is given or the
    given list is empty. *)
Theorem get_logger_mask_patterns (name : string) (a : args) (w : world) (n : Z) :
  world_ok w ->
  LOGGERS w !! name = None ->
  mask_sensitive a = true ->
  requested_level name (level a) w = Some n ->
  (forall path, truthy_filename (filename a) = Some path -> path ∈ writable w) ->
  exists l w' lo f,
    get_logger name a w = (Return l, w') /\
    loggers w' !! l = Some lo /\
    f ∈ l_filters lo /\ filters w !! f = None /\
    filters w' !! f
    = Some (RedactingFilterObj
              (RedactingFilter.mk
                 match mask_sensitive_patterns a with
                 | Some (p :: ps) => p :: ps
                 | _ => ["password"; "token"; "apikey"; "secret"]
                 end)).
Proof.
  intros Hok Hnone Hmask Hlevel Hfile.
  destruct (getLogger_spec name w (proj2 (proj2 Hok)))
    as (l & w1 & Hget & Hfs & Hhs & Hnext & HL & Hw & [lo0 Hlo0]).
  unfold requested_level in Hlevel. rewrite Hget in Hlevel. simpl in Hlevel.
  assert (Hf1 : filters w !! S (next_loc w) = None)
    by (apply (world_ok_fresh w); [done | lia]).
  assert (Hf3 : filters w !! S (S (S (next_loc w))) = None)
    by (apply (world_ok_fresh w); [done | lia]).
  assert (Hcl : forall w0, nameToLevel w0 = nameToLevel w1 ->
                           checkLevel (level a) w0 = (Return n, w0)).
  { intros w0 E. rewrite checkLevel_eq, E. f_equal.
    destruct (level a) as [k|s]; [congruence | by rewrite Hlevel]. }
  clear Hok Hlevel.
  exists l.
  unfold get_logger.
  rewrite (bind_step get_world _ w w w eq_refl), Hnone.
  rewrite (bind_step _ _ _ _ _ Hget), Hmask. clear Hget Hnone.
  destruct w as [fs0 hs0 ls0 nx0 tbl0 wr0 LG0].
  destruct w1 as [fs hs ls nx tbl wr LG].
  cbv beta iota delta [filters handlers loggers next_loc nameToLevel writable
      LOGGERS] in *.
  subst fs hs nx LG wr.
  unfold when, Logger_setLevel, Handler_setLevel, new_RotatingFileHandler.
  destruct (console a); repeat step Hcl;
    (destruct (truthy_filename (filename a)) as [path|] eqn:Hpath;
     [ repeat step Hcl;
       rewrite bool_decide_eq_true_2 by (by apply Hfile);
       repeat step Hcl
     | repeat step Hcl]).
  1,2: eexists _, _, (S (S (S nx0))).
  3,4: eexists _, _, (S nx0).
  all: split; [reflexivity|]; norm.
  all: split; [lookups; rewrite Hlo0; reflexivity|].
  all: cbn [l_handlers l_filters l_level l_propagate].
  all: split; [eauto using elem_of_add_once, elem_of_add_once_mono|].
  all: split; [done|].
  all: lookups; reflexivity.
Qed.

Lemma get_logger_mask_patterns_witness :
  exists l w' lo f,
    get_logger "x" (mkArgs (LevelName "DEBUG") None false 104857600 20 true
                           (Some ["password"; "token"]))
               initial_world = (Return l, w') /\
    loggers w' !! l = Some lo /\
    f ∈ l_filters lo /\ filters initial_world !! f = None /\
    filters w' !! f
    = Some (RedactingFilterObj (RedactingFilter.mk ["password"; "token"])).
Proof.
  apply (get_logger_mask_patterns
           "x" (mkArgs (LevelName "DEBUG") None false 104857600 20 true
                       (Some ["password"; "token"]))
           initial_world 10).
  - exact initial_world_ok.
  - reflexivity.
  - reflexivity.
  - vm_compute. reflexivity.
  - intros path H. simpl in H. discriminate.
Defined.

(** C9 as worded fails for a given empty list: the filter gets the four
    default patterns, not the empty list, and it does redact. *)
Lemma provided_empty_patterns_get_defaults :
  exists w' lo,
    get_logger "x" (mkArgs (LevelInt INFO) None true 104857600 20 true (Some []))
               initial_world = (Return "x", w') /\
    loggers w' !! "x" = Some lo /\
    l_filters lo = [2; 3]%nat /\
    filters w' !! 2%nat = Some (DuplicateFilterObj DuplicateFilter.new) /\
    filters w' !! 3%nat
    = Some (RedactingFilterObj
              (RedactingFilter.mk ["password"; "token"; "apikey"; "secret"])) /\
    RedactingFilter.mk ["password"; "token"; "apikey"; "secret"]
    <> RedactingFilter.mk [] /\
    RedactingFilter.redact
      (RedactingFilter.mk ["password"; "token"; "apikey"; "secret"])
      "my token: abc" = "my token ***** ".
Proof.
  eexists _, _. split; [vm_compute; reflexivity|].
  split; [vm_compute; reflexivity|].
  split; [reflexivity|]. split; [vm_compute; reflexivity|].
  split; [vm_compute; reflexivity|]. split; [discriminate|].
  vm_compute. reflexivity.
Qed.

Lemma bind_Return {A B} (m : M A) (f : A -> M B) (w w' : world) (b : B) :
  (m ≫= f) w = (Return b, w') ->
  exists a w1, m w = (Return a, w1) /\ f a w1 = (Return b, w').
Proof.
  unfold mbind, M_bind. destruct (m w) as [[a|e] w1]; [eauto | discriminate].
Qed.

(** A call that returns leaves the logger in [LOGGERS] under its name. *)
Lemma get_logger_caches (name : string) (a : args) (w w' : world) (l : string) :
  get_logger name a w = (Return l, w') -> LOGGERS w' !! name = Some l.
Proof.
  unfold get_logger. intros H.
  apply bind_Return in H as (w0 & w0' & [= <- <-] & H).
  destruct (LOGGERS w !! name) as [cached|] eqn:E.
  - by injection H as <- <-.
  - do 8 (apply bind_Return in H as (? & ? & _ & H)).
    apply bind_Return in H as (? & wL & HL & [= <- <-]).
    injection HL as HL. subst wL. unfold with_LOGGERS. simpl.
    apply lookup_insert_eq.
Qed.

(** C6: a call of [get_logger] that returns leaves the logger it returns
    in [LOGGERS] under the name; and in every world that holds this entry,
    a call with that name returns the same logger and leaves the world,
    [LOGGERS] included, as it is, whatever its other arguments are. *)
Theorem get_logger_idempotent
        (name : string) (a : args) (w w' : world) (l : string) :
  get_logger name a w = (Return l, w') ->
  LOGGERS w' !! name = Some l /\
  forall (a' : args) (w2 : world),
    LOGGERS w2 !! name = Some l ->
    get_logger name a' w2 = (Return l, w2).
Proof.
  intros H. split; [by apply (get_logger_caches name a w)|].
  intros a' w2 Hhit. unfold get_logger.
  rewrite (bind_step get_world _ w2 w2 w2 eq_refl). by rewrite Hhit.
Qed.

Lemma get_logger_idempotent_witness :
  LOGGERS (snd (get_logger "x" default_args initial_world)) !! "x" = Some "x" /\
  get_logger "x" (mkArgs (LevelName "no such level") (Some "/nowhere/x.log")
                         false 1 1 true (Some ["secret"]))
             (snd (get_logger "x" default_args initial_world))
  = (Return "x", snd (get_logger "x" default_args initial_world)).
Proof.
  destruct (get_logger_idempotent "x" default_args initial_world
              (snd (get_logger "x" default_args initial_world)) "x")
    as [Hcached Hhit].
  - vm_compute. reflexivity.
  - split; [exact Hcached|]. apply Hhit. exact Hcached.
Defined.

(** Well-formed worlds stay well formed, so every world reached from
    [initial_world] by calls of [get_logger] is one. *)
Lemma preserves_bind {A B} (m : M A) (f : A -> M B) :
  preserves_ok m -> (forall a, preserves_ok (f a)) -> preserves_ok (m ≫= f).
Proof.
  intros Hm Hf w r w' Hok. unfold mbind, M_bind.
  destruct (m w) as [[a|e] w1] eqn:E.
  - apply (Hf a). exact (Hm w _ w1 Hok E).
  - intros [= <- <-]. exact (Hm w _ w1 Hok E).
Qed.

Lemma preserves_pure {A} (m : M A) :
  (forall w, snd (m w) = w) -> preserves_ok m.
Proof. intros H w r w' Hok E. specialize (H w). rewrite E in H. by subst. Qed.

Lemma preserves_new_filter (o : filter_obj) : preserves_ok (new_filter o).
Proof.
  intros w r w' (Hf & Hh & Hroot) [= <- <-]. repeat split; simpl.
  - intros l [H|H]%lookup_insert_is_Some'; [lia|]. apply Hf in H. lia.
  - intros l H. apply Hh in H. lia.
  - done.
Qed.

Lemma preserves_new_handler (o : handler_obj) : preserves_ok (new_handler o).
Proof.
  intros w r w' (Hf & Hh & Hroot) [= <- <-]. repeat split; simpl.
  - intros l H. apply Hf in H. lia.
  - intros l [H|H]%lookup_insert_is_Some'; [lia|]. apply Hh in H. lia.
  - done.
Qed.

Lemma preserves_update_handler (h : loc) (f : handler_obj -> handler_obj) :
  preserves_ok (update_handler h f).
Proof.
  intros w r w' (Hf & Hh & Hroot) [= <- <-]. repeat split; simpl; [done| |done].
  intros l H. apply lookup_alter_is_Some in H. by apply Hh.
Qed.

Lemma preserves_update_logger (l : string) (f : logger_obj -> logger_obj) :
  preserves_ok (update_logger l f).
Proof.
  intros w r w' (Hf & Hh & Hroot) [= <- <-]. repeat split; simpl; [done..|].
  by apply lookup_alter_is_Some.
Qed.

Lemma preserves_checkLevel (lv : level_arg) : preserves_ok (checkLevel lv).
Proof. apply preserves_pure. intros w. by rewrite checkLevel_eq. Qed.

Lemma preserves_getLogger (name : string) : preserves_ok (getLogger name).
Proof.
  intros w r w' Hok. unfold getLogger.
  destruct (bool_decide (name = "") || bool_decide (name = root_name));
    [by intros [= <- <-]|].
  unfold mbind, M_bind, get_world. destruct (loggers w !! name);
    [by intros [= <- <-]|].
  intros [= <- <-]. destruct Hok as (Hf & Hh & Hroot). repeat split; simpl; [done..|].
  apply lookup_insert_is_Some'. by right.
Qed.

Lemma get_logger_preserves_ok (name : string) (a : args) :
  preserves_ok (get_logger name a).
Proof.
  unfold get_logger. apply preserves_bind; [by apply preserves_pure|]. intros w0.
  destruct (LOGGERS w0 !! name); [by apply preserves_pure|].
  apply preserves_bind; [apply preserves_getLogger|]. intros l.
  apply preserves_bind.
  { unfold when. destruct (console a); [|by apply preserves_pure].
    repeat (apply preserves_bind; [|intros ?]);
      first [ apply preserves_new_handler | apply preserves_new_filter
            | apply preserves_update_handler | apply preserves_update_logger ]. }
  intros _. apply preserves_bind.
  { apply preserves_bind; [apply preserves_checkLevel|]. intros ?.
    apply preserves_update_logger. }
  intros _. apply preserves_bind; [apply preserves_new_filter|]. intros f.
  apply preserves_bind; [apply preserves_update_logger|]. intros _.
  apply preserves_bind.
  { unfold when. destruct (mask_sensitive a); [|by apply preserves_pure].
    apply preserves_bind; [apply preserves_new_filter|]. intros ?.
    apply preserves_update_logger. }
  intros _. apply preserves_bind.
  { destruct (truthy_filename (filename a)); [|by apply preserves_pure].
    apply preserves_bind.
    { apply preserves_bind; [by apply preserves_pure|]. intros w1.
      destruct (bool_decide _); [apply preserves_new_handler|by apply preserves_pure]. }
    intros h. apply preserves_bind; [apply preserves_update_handler|]. intros _.
    apply preserves_bind; [|intros _; apply preserves_update_logger].
    apply preserves_bind; [apply preserves_checkLevel|]. intros ?.
    apply preserves_update_handler. }
  intros _. apply preserves_bind; [apply preserves_update_logger|]. intros _.
  apply preserves_bind; [|intros _; by apply preserves_pure].
  intros w r w' (Hf & Hh & Hroot) [= <- <-]. done.
Qed.

End GetLoggerFacts.

(** * Further properties *)

(** ** DuplicateFilter over a stream of records *)

Section StreamFacts.
Import DuplicateFilter Trace.

Lemma judged_app (xs ys : list event) : judged (xs ++ ys) = judged xs ++ judged ys.
Proof.
  induction xs as [|[w|r|r|e] xs IH]; simpl; [done|done| | |done]; by rewrite IH.
Qed.

Lemma failures_app (xs ys : list event) :
  failures (xs ++ ys) = failures xs ++ failures ys.
Proof.
  induction xs as [|[w|r|r|e] xs IH]; simpl; [done..|]. by rewrite IH.
Qed.

Lemma judged_Warned (ws : list SideLog) : judged (map Warned ws) = [].
Proof. induction ws; simpl; done. Qed.

Lemma failures_Warned (ws : list SideLog) : failures (map Warned ws) = [].
Proof. induction ws; simpl; done. Qed.

(** X1: Whatever the attributes of the instance hold, [filter] raises nothing
    and every record of a stream gets its verdict: the records that passed
    or were suppressed are the records given, in their order. *)
Theorem run_judges_every_record (self : t) (records : list LogRecord) :
  judged (fst (run self records)) = records /\
  failures (fst (run self records)) = [].
Proof.
  revert self. induction records as [|r rest IH]; intros self; [done|].
  rewrite run_cons. cbn [fst].
  destruct (filter_returns self r) as [b ->].
  destruct (IH (self' (filter self r))) as [IHj IHf].
  rewrite !judged_app, !failures_app, judged_Warned, failures_Warned, IHj, IHf.
  by destruct b.
Qed.

Lemma run_no_repeat (key : option log_key) (records : list LogRecord) :
  no_repeat key records ->
  fst (run {| last_log := key; repeated_number := Some 0 |} records)
  = map Passed records.
Proof.
  revert key. induction records as [|r rest IH]; intros key; [done|].
  intros [Hne Hrest]. rewrite run_cons. cbn [fst].
  assert (E : filter {| last_log := key; repeated_number := Some 0 |} r
              = mkResult (Return true) []
                  {| last_log := Some (current_log r); repeated_number := Some 0 |}).
  { unfold filter. cbn [last_log repeated_number].
    by rewrite bool_decide_eq_false_2. }
  rewrite E. cbn [warnings ret self' verdict map app]. by rewrite IH.
Qed.

(** X2: Only neighbours count: in a stream where no record has the (module,
    levelno, msg) of the record just before it, a fresh instance lets
    every record pass and makes no call on [LOGGER], however often a
    record comes back later. *)
Theorem no_neighbour_repeats_all_pass (records : list LogRecord) :
  no_repeat None records ->
  fst (run new records) = map Passed records.
Proof.
  destruct records as [|r rest]; [done|]. intros [_ Hrest].
  rewrite run_cons, filter_new. cbn [fst warnings ret self' verdict map app].
  by rewrite run_no_repeat.
Qed.

Lemma no_neighbour_repeats_all_pass_witness :
  fst (run new [mkRecord "m" 20 "a"; mkRecord "m" 20 "b"; mkRecord "m" 20 "a";
                mkRecord "m" 30 "a"; mkRecord "n" 30 "a"])
  = map Passed [mkRecord "m" 20 "a"; mkRecord "m" 20 "b"; mkRecord "m" 20 "a";
                mkRecord "m" 30 "a"; mkRecord "n" 30 "a"].
Proof.
  apply no_neighbour_repeats_all_pass. simpl. repeat split; discriminate.
Defined.

Lemma notices_app (xs ys : list event) :
  notices (xs ++ ys) = notices xs ++ notices ys.
Proof.
  induction xs as [|[w|r|r|e] xs IH]; simpl; [done| |done..]. by rewrite IH.
Qed.

Lemma suppressed_app (xs ys : list event) :
  suppressed (xs ++ ys) = suppressed xs + suppressed ys.
Proof.
  induction xs as [|[w|r|r|e] xs IH]; simpl; [done..| |done]. rewrite IH. lia.
Qed.

Lemma notices_Warned (ws : list SideLog) : notices (map Warned ws) = ws.
Proof. induction ws as [|w ws IH]; simpl; [done|]. by rewrite IH. Qed.

Lemma suppressed_Warned (ws : list SideLog) : suppressed (map Warned ws) = 0.
Proof. induction ws; simpl; done. Qed.

Lemma run_counts (key : log_key) (c : Z) (records : list LogRecord) :
  0 <= c ->
  exists ks,
    notices (fst (run {| last_log := Some key; repeated_number := Some c |} records))
    = map (fun k => mkSideLog WARNING (repeated_message k)) ks /\
    Forall (fun k => 0 < k) ks /\
    sum ks + default 0 (repeated_number
                          (snd (run {| last_log := Some key;
                                       repeated_number := Some c |} records)))
    = c + suppressed (fst (run {| last_log := Some key;
                                  repeated_number := Some c |} records)).
Proof.
  revert key c. induction records as [|r rest IH]; intros key c Hc.
  - exists []. simpl. split; [done|]. split; [constructor | lia].
  - rewrite run_cons. cbn [fst snd].
    destruct (decide (current_log r = key)) as [E|E].
    + rewrite (filter_same key c r E). cbn [warnings ret self' verdict map].
      destruct (IH key (c + 1)) as (ks & Hn & Hpos & Hsum); [lia|].
      exists ks. simpl. split; [done|]. split; [done | lia].
    + rewrite (filter_other key c r E). cbn [warnings ret self' verdict].
      destruct (IH (current_log r) 0) as (ks & Hn & Hpos & Hsum); [lia|].
      rewrite notices_app, suppressed_app, notices_Warned, suppressed_Warned.
      destruct (Z.eqb_spec c 0) as [->|Hc0].
      * exists ks. simpl. split; [done|]. split; [done | lia].
      * exists (c :: ks). simpl. rewrite Hn. split; [done|].
        split; [constructor; [lia | done] | unfold sum in *; simpl; lia].
Qed.

Lemma unreached_counts (records : list LogRecord) :
  exists ks,
    notices (fst (run new records))
    = map (fun k => mkSideLog WARNING
                      ("Last log repeated " +:+ str_of_int k +:+ " times.")) ks /\
    Forall (fun k => 0 < k) ks /\
    sum ks + default 0 (repeated_number (snd (run new records)))
    = suppressed (fst (run new records)).
Proof.
  destruct records as [|r rest].
  - exists []. simpl. split; [done|]. split; [constructor | done].
  - rewrite run_cons, filter_new. cbn [fst snd warnings ret self' verdict map app].
    destruct (run_counts (current_log r) 0 rest) as (ks & Hn & Hpos & Hsum); [lia|].
    exists ks. simpl. split; [done|]. split; [done | lia].
Qed.

(** X3: No suppressed record goes uncounted where the records of [LOGGER]
    do not come back to the instance: for a fresh instance and any stream,
    the calls on [LOGGER] are notices "Last log repeated k times." at
    WARNING with every k positive, and the k announced so far plus the
    count that the instance still holds add up to the number of records
    suppressed. *)
Theorem suppressed_records_are_counted
        (fuel : nat) (reaches : bool) (records : list LogRecord) :
  (0 < fuel)%nat ->
  reaches = false ->
  exists evs final ks,
    Attached.run fuel reaches new records = Some (evs, final) /\
    notices evs
    = map (fun k => mkSideLog WARNING
                      ("Last log repeated " +:+ str_of_int k +:+ " times.")) ks /\
    Forall (fun k => 0 < k) ks /\
    sum ks + default 0 (repeated_number final) = suppressed evs.
Proof.
  intros Hfuel ->. destruct fuel as [|fuel]; [lia|].
  destruct (unreached_counts records) as (ks & Hn & Hpos & Hsum).
  rewrite run_unreached. destruct (run new records) as [evs final].
  by exists evs, final, ks.
Qed.

Lemma suppressed_records_are_counted_witness :
  exists evs final ks,
    Attached.run 1 false new
                 [mkRecord "m" 20 "a"; mkRecord "m" 20 "a"; mkRecord "m" 20 "a";
                  mkRecord "m" 20 "b"; mkRecord "m" 20 "b"]
    = Some (evs, final) /\
    notices evs
    = map (fun k => mkSideLog WARNING
                      ("Last log repeated " +:+ str_of_int k +:+ " times.")) ks /\
    Forall (fun k => 0 < k) ks /\
    sum ks + default 0 (repeated_number final) = suppressed evs.
Proof.
  refine (suppressed_records_are_counted 1 false _ _ _); [lia | reflexivity].
Defined.

End StreamFacts.

(** ** RedactingFilter: what is left alone and what leaks *)

Section RedactMoreFacts.
Import Scan Re RedactingFilter.

Lemma redact_cons (pattern : string) (patterns : list string) (msg : string) :
  redact (mk (pattern :: patterns)) msg
  = redact (mk patterns) (redact_one pattern msg).
Proof. reflexivity. Qed.

Lemma redact_one_NoSpan (pattern msg : string) :
  NoSpan tokchar (text_of pattern) (text_of msg) -> redact_one pattern msg = msg.
Proof.
  intros H. rewrite <- (string_of_text_of msg) at 1.
  rewrite redact_one_text. unfold match_here.
  by rewrite substitute_NoSpan, string_of_text_of.
Qed.

(** X4: A message that holds none of the patterns (keywords without a
    metacharacter) goes through the filter as it is: [filter] returns
    [True] and the record is unchanged. *)
Theorem redact_without_keyword (patterns : list string) (record : LogRecord) :
  Forall (fun p => plain p = true /\ ~ occurs (text_of p) (text_of (msg record)))
         patterns ->
  filter (mk patterns) record = (true, record).
Proof.
  intros H. unfold filter. f_equal.
  assert (E : redact (mk patterns) (msg record) = msg record).
  { induction H as [|p ps [_ Hp] _ IH]; [done|].
    rewrite redact_cons, redact_one_NoSpan; [done|].
    intros pre m rest Heq Hspan. apply Hp. by eapply Span_occurs. }
  rewrite E. by destruct record.
Qed.

Lemma redact_without_keyword_witness :
  filter (mk ["password"; "token"; "apikey"; "secret"])
         (mkRecord "app" 20 "Passwords and Tokens are case sensitive")
  = (true, mkRecord "app" 20 "Passwords and Tokens are case sensitive").
Proof.
  apply redact_without_keyword.
  repeat (constructor; [split; [reflexivity | by apply not_occurs]|]).
  constructor.
Defined.

(** X5: The keyword alone is not enough: where every occurrence of the keyword
    (one without a metacharacter) is followed at once by a letter, a digit
    or an underscore (as in "password123" or "token_file"), or stands at
    the very end, nothing is redacted. *)
Theorem keyword_inside_word_not_redacted (pattern msg : string) :
  plain pattern = true ->
  (forall pre c post,
      text_of msg = pre ++ text_of pattern ++ c :: post -> is_word c = true) ->
  redact_one pattern msg = msg.
Proof.
  intros _ H. apply redact_one_NoSpan.
  intros pre m rest Heq (nw & tok & -> & Hnw & Hall & _).
  destruct nw as [|c nw]; [done|].
  apply Forall_cons in Hall as [Hc _].
  specialize (H pre c (nw ++ tok ++ rest)).
  rewrite Heq, <- !app_assoc in H. specialize (H eq_refl).
  unfold nonword in Hc. rewrite H in Hc. discriminate.
Qed.

Lemma followers_In (kw pre post : text) (c : ascii) :
  In c (followers kw (pre ++ kw ++ c :: post)).
Proof.
  induction pre as [|x pre IH].
  - simpl. remember (kw ++ c :: post) as s eqn:E.
    destruct s as [|y s]; [by destruct kw|].
    simpl. rewrite E, strip_prefix_app. by left.
  - simpl. destruct (strip_prefix kw (x :: pre ++ kw ++ c :: post)) as [[|? ?]|];
      [done | by right | done].
Qed.

Lemma keyword_inside_word_not_redacted_witness :
  redact_one "token" "token_file=/etc/x tokens=3 token" = "token_file=/etc/x tokens=3 token".
Proof.
  apply keyword_inside_word_not_redacted; [reflexivity|].
  intros pre c post H.
  pose proof (followers_In (text_of "token") pre post c) as Hin.
  rewrite <- H in Hin. vm_compute in Hin.
  destruct Hin as [<-|[<-|[]]]; reflexivity.
Defined.

Lemma plain_not_plus (pattern : string) (c0 : ascii) (kw' : text) :
  plain pattern = true -> text_of pattern = c0 :: kw' ->
  Ascii.eqb c0 "+" = false.
Proof.
  unfold plain. intros H E. rewrite E in H. simpl in H.
  apply andb_true_iff in H as [H _].
  destruct (Ascii.eqb_spec c0 "+") as [->|]; [discriminate H | done].
Qed.

Lemma match_pattern_literal (token : ascii -> bool) (kw s : text) :
  Str.match_literal kw s = None -> match_pattern token kw s = None.
Proof.
  unfold Str.match_literal, match_pattern.
  by destruct (strip_prefix kw s).
Qed.

(** With one replacement made, a bound of two is a bound of one. *)
Lemma substitute_one_left (matcher : text -> option nat) (repl : text)
      (n skip : nat) (s : text) :
  substitute matcher repl 2 (S n) skip s = substitute matcher repl 1 n skip s.
Proof.
  revert n skip. induction s as [|c s IH]; intros n skip; [done|].
  destruct skip as [|skip]; [|apply IH].
  cbn [substitute]. change ((2 =? 0)%nat || (S n <? 2)%nat) with (n <=? 0)%nat.
  change ((1 =? 0)%nat || (n <? 1)%nat) with (n <=? 0)%nat.
  destruct (n <=? 0)%nat; [|done].
  destruct (matcher (c :: s)); by rewrite IH.
Qed.

(** X6: The value is cut at its first plus sign.  Where the first
    occurrence of the keyword is followed by non-word characters and a
    value that starts with a letter, a digit or an underscore and holds a
    plus sign, the value is masked up to the plus sign only: the output is
    the text before the keyword, the keyword, " ***** ", the plus sign,
    and then what follows the plus sign, itself redacted with the one
    replacement that is left; where the keyword does not occur a second
    time, what follows the plus sign is in the output as it was. *)
Theorem value_leaks_from_plus
        (pattern : string) (t0 : ascii) (pre nw tok rest : text) :
  plain pattern = true ->
  pattern <> "" ->
  Str.First (text_of pattern) pre (nw ++ (t0 :: tok) ++ "+"%char :: rest) ->
  nw <> [] -> Forall (fun c => nonword c = true) nw ->
  is_word t0 = true -> Forall (fun c => tokchar c = true) (t0 :: tok) ->
  redact_one pattern
             (string_of (pre ++ text_of pattern ++ nw ++ (t0 :: tok)
                           ++ "+"%char :: rest))
  = string_of (pre ++ text_of pattern ++ text_of " ***** "
                 ++ "+"%char :: Re.sub (text_of pattern)
                                       (text_of (replacement pattern)) rest 1) /\
  (~ occurs (text_of pattern) rest ->
   redact_one pattern
              (string_of (pre ++ text_of pattern ++ nw ++ (t0 :: tok)
                            ++ "+"%char :: rest))
   = string_of (pre ++ text_of pattern ++ text_of " ***** "
                  ++ "+"%char :: rest)).
Proof.
  intros Hplain Hne Hfirst Hnw Hnwall Ht0 Htok.
  assert (exists c0 kw', text_of pattern = c0 :: kw') as (c0 & kw' & Hkw)
    by (destruct pattern; [done | simpl; eauto]).
  pose proof (plain_not_plus _ _ _ Hplain Hkw) as Hplus.
  rewrite text_of_replacement.
  set (kw := text_of pattern) in *.
  set (m := kw ++ nw ++ t0 :: tok).
  assert (Hmatch : match_pattern tokchar kw (m ++ "+"%char :: rest)
                   = Some (length m)).
  { subst m. rewrite <- !app_assoc. unfold match_pattern.
    rewrite strip_prefix_app.
    assert (Htw : take_while nonword (nw ++ (t0 :: tok) ++ "+"%char :: rest) = nw).
    { rewrite take_while_app by done. simpl. unfold nonword at 1.
      rewrite Ht0. simpl. apply app_nil_r. }
    rewrite Htw. destruct nw as [|n0 nw]; [done|].
    cbn [length nonword_then_token].
    assert (Hdrop : drop (S (length nw))
                         ((n0 :: nw) ++ (t0 :: tok) ++ "+"%char :: rest)
                    = (t0 :: tok) ++ "+"%char :: rest)
      by (apply (drop_app_length (n0 :: nw))).
    rewrite Hdrop, (take_while_app tokchar (t0 :: tok)) by done.
    change (take_while tokchar ("+"%char :: rest)) with (@nil ascii).
    rewrite app_nil_r. f_equal. repeat (rewrite length_app || simpl). lia. }
  assert (Hbefore : forall a b, pre = a ++ b -> b <> [] ->
                      match_pattern tokchar kw (b ++ m ++ "+"%char :: rest) = None).
  { intros a b Hab Hb. apply match_pattern_literal.
    subst m. rewrite <- !app_assoc.
    by apply (First_match kw pre _ Hfirst a b). }
  assert (Hplus' : match_pattern tokchar kw ("+"%char :: rest) = None).
  { unfold match_pattern. rewrite Hkw. simpl. by rewrite Hplus. }
  assert (E : redact_one pattern
                (string_of (pre ++ kw ++ nw ++ (t0 :: tok) ++ "+"%char :: rest))
              = string_of (pre ++ kw ++ text_of " ***** "
                             ++ "+"%char :: Re.sub kw (kw ++ text_of " ***** ") rest 1)).
  { replace (pre ++ kw ++ nw ++ (t0 :: tok) ++ "+"%char :: rest)
      with (pre ++ m ++ "+"%char :: rest)
      by (subst m; by rewrite <- !app_assoc).
    rewrite redact_one_text. f_equal. unfold match_here, Re.sub. fold kw.
    rewrite substitute_copy by done.
    rewrite substitute_match; [|done|by destruct kw|done].
    change ("+"%char :: rest) with (["+"%char] ++ rest) at 1.
    rewrite substitute_copy.
    - rewrite substitute_one_left, <- !app_assoc. reflexivity.
    - intros a b Hab Hb. destruct a as [|x a].
      + simpl in Hab. subst b. exact Hplus'.
      + destruct a; destruct b; try done; discriminate. }
  split; [exact E|].
  intros Hno. rewrite E. do 5 f_equal. unfold Re.sub, match_here.
  apply substitute_NoSpan.
  intros a sp b Heq Hspan. apply Hno. by eapply Span_occurs.
Qed.

Lemma value_leaks_from_plus_witness :
  redact_one "password" "please password: abc+def==" = "please password ***** +def==".
Proof.
  destruct (value_leaks_from_plus
              "password" "a" (text_of "please ") (text_of ": ") (text_of "bc")
              (text_of "def=="))
    as [_ H].
  - reflexivity.
  - discriminate.
  - apply first_match_First. vm_compute. reflexivity.
  - discriminate.
  - repeat constructor.
  - reflexivity.
  - repeat constructor.
  - apply H. apply not_occurs. vm_compute. reflexivity.
Defined.

End RedactMoreFacts.

(** ** get_logger: the whole effect of a first call *)

Section FirstCallFacts.
Import Logging.

Ltac norm :=
  cbv beta iota delta [filters handlers loggers next_loc nameToLevel writable
      LOGGERS with_filters with_handlers with_loggers with_next_loc
      with_nameToLevel with_LOGGERS].

Ltac step Hcl :=
  first [ erewrite bind_step by reflexivity
        | erewrite bind_step by (apply Hcl; reflexivity)
        | rewrite bind_assoc ];
  norm.

Ltac lookups :=
  repeat first [ rewrite lookup_alter_ne by (lia || done)
               | rewrite lookup_insert_ne by (lia || done)
               | rewrite lookup_alter_eq
               | rewrite lookup_insert_eq ].

(** [getLogger] touches no logger but the one it returns. *)
Lemma getLogger_frame (name : string) (w w1 : world) (l : string) :
  getLogger name w = (Return l, w1) ->
  forall l', l' <> l -> loggers w1 !! l' = loggers w !! l'.
Proof.
  unfold getLogger.
  destruct (bool_decide (name = "") || bool_decide (name = root_name));
    [by intros [= <- <-]|].
  unfold mbind, M_bind, get_world. destruct (loggers w !! name) eqn:E.
  - by intros [= <- <-].
  - intros [= <- <-] l' Hl'. simpl. by rewrite lookup_insert_ne.
Qed.

(** Where the objects of a first call go. *)
Lemma get_logger_first_call
      (name : string) (a : args) (w w1 : world) (l : string) (n : Z) :
  world_ok w ->
  LOGGERS w !! name = None ->
  getLogger name w = (Return l, w1) ->
  requested_level name (level a) w = Some n ->
  (forall path, truthy_filename (filename a) = Some path -> path ∈ writable w) ->
  let h := next_loc w in
  let f2 := if console a then S (S h) else h in
  let lh := if mask_sensitive a then S (S f2) else S f2 in
  exists w' lo0 lo,
    get_logger name a w = (Return l, w') /\
    loggers w1 !! l = Some lo0 /\ loggers w' !! l = Some lo /\
    (forall l', l' <> l -> loggers w' !! l' = loggers w1 !! l') /\
    l_level lo = n /\ l_propagate lo = false /\
    l_handlers lo
    = match truthy_filename (filename a) with
      | Some _ => add_once lh
      | None => fun hs => hs
      end ((if console a then add_once h else fun hs => hs) (l_handlers lo0)) /\
    l_filters lo
    = (if mask_sensitive a then add_once (S f2) else fun fs => fs)
        (add_once f2 (l_filters lo0)) /\
    handlers w'
    = match truthy_filename (filename a) with
      | Some path =>
          insert lh (mkHandler (RotatingFileHandler path (file_max_bytes a)
                                                    (file_backup_count a))
                               n (Some log_formatter) [])
      | None => fun m => m
      end ((if console a
            then insert h (mkHandler StreamHandler NOTSET (Some log_formatter) [S h])
            else fun m => m) (handlers w)) /\
    filters w'
    = (if mask_sensitive a
       then insert (S f2)
                   (RedactingFilterObj
                      (RedactingFilter.mk
                         (effective_patterns (mask_sensitive_patterns a))))
       else fun m => m)
        (<[f2 := DuplicateFilterObj DuplicateFilter.new]>
           ((if console a
             then insert (S h) (DuplicateFilterObj DuplicateFilter.new)
             else fun m => m) (filters w))) /\
    next_loc w' = match truthy_filename (filename a) with
                  | Some _ => S lh
                  | None => lh
                  end /\
    nameToLevel w' = nameToLevel w1 /\ writable w' = writable w /\
    LOGGERS w' = <[name := l]> (LOGGERS w).
Proof.
  intros Hok Hnone Hget Hlevel Hfile h f2 lh. subst h f2 lh.
  destruct (getLogger_spec name w (proj2 (proj2 Hok)))
    as (l' & w1' & Hget' & Hfs & Hhs & Hnext & HL & Hw & [lo0 Hlo0]).
  rewrite Hget in Hget'. injection Hget' as <- <-.
  unfold requested_level in Hlevel. rewrite Hget in Hlevel. simpl in Hlevel.
  assert (Hcl : forall w0, nameToLevel w0 = nameToLevel w1 ->
                           checkLevel (level a) w0 = (Return n, w0)).
  { intros w0 E. rewrite checkLevel_eq, E. f_equal.
    destruct (level a) as [k|s]; [congruence | by rewrite Hlevel]. }
  clear Hok Hlevel.
  unfold get_logger.
  rewrite (bind_step get_world _ w w w eq_refl), Hnone.
  rewrite (bind_step _ _ _ _ _ Hget). clear Hget Hnone.
  destruct w as [fs0 hs0 ls0 nx0 tbl0 wr0 LG0].
  destruct w1 as [fs hs ls nx tbl wr LG].
  cbv beta iota delta [filters handlers loggers next_loc nameToLevel writable
      LOGGERS] in *.
  subst fs hs nx LG wr.
  unfold when, Logger_setLevel, Handler_setLevel, new_RotatingFileHandler.
  destruct (console a); repeat step Hcl;
    (destruct (mask_sensitive a); repeat step Hcl;
     (destruct (truthy_filename (filename a)) as [path|] eqn:Hpath;
      [ repeat step Hcl;
        rewrite bool_decide_eq_true_2 by (by apply Hfile);
        repeat step Hcl
      | repeat step Hcl])).
  all: eexists _, lo0, _.
  all: split; [reflexivity|]; norm.
  all: split; [done|].
  all: split; [lookups; rewrite Hlo0; reflexivity|].
  all: split; [intros; lookups; reflexivity|].
  all: cbn [l_handlers l_filters l_level l_propagate].
  all: rewrite ?alter_insert_eq.
  all: repeat split; reflexivity.
Qed.

Lemma bind_raise {A B} (m : M A) (f : A -> M B) (w w1 : world) (e : exn) :
  m w = (Raise e, w1) -> (m ≫= f) w = (Raise e, w1).
Proof. unfold mbind, M_bind. by intros ->. Qed.

(** The logger that [getLogger] returns is the one [logging] had under
    that name, or a new [SimpleLogger]. *)
Lemma getLogger_logger (name : string) (w w1 : world) (l : string) (lo0 : logger_obj) :
  getLogger name w = (Return l, w1) ->
  loggers w1 !! l = Some lo0 ->
  loggers w !! l = Some lo0 \/
  (loggers w !! l = None /\ lo0 = mkLogger INFO [] [] true).
Proof.
  unfold getLogger.
  destruct (bool_decide (name = "") || bool_decide (name = root_name));
    [intros [= <- <-]; by left|].
  unfold mbind, M_bind, get_world. destruct (loggers w !! name) eqn:E.
  - intros [= <- <-]. by left.
  - intros [= <- <-]. simpl. rewrite lookup_insert_eq. intros [= <-]. by right.
Qed.

(** Once the logger exists, [getLogger] returns it and changes nothing. *)
Lemma getLogger_again (name : string) (w w1 w2 : world) (l : string) :
  getLogger name w = (Return l, w1) ->
  is_Some (loggers w2 !! l) ->
  getLogger name w2 = (Return l, w2).
Proof.
  unfold getLogger.
  destruct (bool_decide (name = "") || bool_decide (name = root_name));
    [by intros [= <- <-]|].
  unfold mbind, M_bind, get_world.
  assert (l = name -> is_Some (loggers w2 !! l) ->
          match loggers w2 !! name with
          | Some _ => mret name
          | None => new_SimpleLogger name;; mret name
          end w2 = (Return l, w2)) as Hagain.
  { intros -> [lo ->]. done. }
  destruct (loggers w !! name); intros [= <- <-]; by apply Hagain.
Qed.

(** X9: With a file name that can be opened, the logger of a first call has a
    new [RotatingFileHandler] for that file with the size and the backup
    count asked for; the handler has the formatter and the requested level,
    and no filter of its own. *)
Theorem get_logger_file_handler
        (name : string) (a : args) (w : world) (n : Z) (path : string) :
  world_ok w ->
  LOGGERS w !! name = None ->
  requested_level name (level a) w = Some n ->
  truthy_filename (filename a) = Some path ->
  path ∈ writable w ->
  exists l w' lo lh,
    get_logger name a w = (Return l, w') /\
    loggers w' !! l = Some lo /\
    lh ∈ l_handlers lo /\
    handlers w !! lh = None /\
    handlers w' !! lh
    = Some (mkHandler (RotatingFileHandler path (file_max_bytes a)
                                           (file_backup_count a))
                      n (Some log_formatter) []).
Proof.
  intros Hok Hnone Hlevel Hpath Hwr.
  destruct (getLogger_spec name w (proj2 (proj2 Hok))) as (l & w1 & Hget & _).
  destruct (get_logger_first_call name a w w1 l n Hok Hnone Hget Hlevel)
    as (w' & lo0 & lo & Hrun & Hlo0 & Hlo & Hothers & Hlv & Hprop & Hhs & Hfs
        & Hstore & _).
  { intros p Hp. rewrite Hpath in Hp. by injection Hp as <-. }
  rewrite Hpath in Hhs, Hstore.
  eexists l, w', lo, _. split; [done|]. split; [done|].
  split; [rewrite Hhs; apply elem_of_add_once|].
  split; [|rewrite Hstore; apply lookup_insert_eq].
  apply (world_ok_fresh w _ Hok). destruct (mask_sensitive a), (console a); lia.
Qed.

Lemma get_logger_file_handler_witness :
  exists l w' lo lh,
    get_logger "x" (mkArgs (LevelName "DEBUG") (Some "/tmp/x.log") true 1024 3
                           false None)
               (mkWorld ∅ ∅ (loggers initial_world) 0%nat (nameToLevel initial_world)
                        {[ "/tmp/x.log" ]} ∅)
    = (Return l, w') /\
    loggers w' !! l = Some lo /\
    lh ∈ l_handlers lo /\
    handlers (mkWorld ∅ ∅ (loggers initial_world) 0%nat (nameToLevel initial_world)
                      {[ "/tmp/x.log" ]} ∅) !! lh = None /\
    handlers w' !! lh
    = Some (mkHandler (RotatingFileHandler "/tmp/x.log" 1024 3)
                      10 (Some log_formatter) []).
Proof.
  refine (get_logger_file_handler "x" _ _ 10 "/tmp/x.log" _ _ _ _ _).
  - repeat split.
    + intros k [x H]. cbv [filters] in H. by rewrite lookup_empty in H.
    + intros k [x H]. cbv [handlers] in H. by rewrite lookup_empty in H.
    + vm_compute. eauto.
  - reflexivity.
  - vm_compute. reflexivity.
  - reflexivity.
  - cbv [writable]. by apply elem_of_singleton.
Defined.

(** X10: With [console=False] and no file name the call makes no handler at
    all: the store of handlers is as before, and the logger has only the
    handlers it had; a logger that is new has none. *)
Theorem get_logger_no_output (name : string) (a : args) (w : world) (n : Z) :
  world_ok w ->
  LOGGERS w !! name = None ->
  requested_level name (level a) w = Some n ->
  console a = false ->
  truthy_filename (filename a) = None ->
  exists l w' lo,
    get_logger name a w = (Return l, w') /\
    loggers w' !! l = Some lo /\
    handlers w' = handlers w /\
    (forall k, k ∈ l_handlers lo ->
               exists lo0, loggers w !! l = Some lo0 /\ k ∈ l_handlers lo0) /\
    (loggers w !! l = None -> l_handlers lo = []).
Proof.
  intros Hok Hnone Hlevel Hconsole Hpath.
  destruct (getLogger_spec name w (proj2 (proj2 Hok))) as (l & w1 & Hget & _).
  destruct (get_logger_first_call name a w w1 l n Hok Hnone Hget Hlevel)
    as (w' & lo0 & lo & Hrun & Hlo0 & Hlo & Hothers & Hlv & Hprop & Hhs & Hfs
        & Hstore & _).
  { intros p Hp. by rewrite Hpath in Hp. }
  rewrite Hpath, Hconsole in Hhs, Hstore.
  exists l, w', lo. do 3 (split; [done|]).
  destruct (getLogger_logger name w w1 l lo0 Hget Hlo0) as [Hold|[Hnew ->]].
  - split; [|by rewrite Hold]. intros k Hk. exists lo0. by rewrite <- Hhs.
  - split; [|done]. intros k Hk. rewrite Hhs in Hk. by apply elem_of_nil in Hk.
Qed.

Lemma get_logger_no_output_witness :
  exists l w' lo,
    get_logger "x" (mkArgs (LevelInt 10) (Some "") false 1 1 true None) initial_world
    = (Return l, w') /\
    loggers w' !! l = Some lo /\
    handlers w' = handlers initial_world /\
    (forall k, k ∈ l_handlers lo ->
               exists lo0, loggers initial_world !! l = Some lo0 /\ k ∈ l_handlers lo0) /\
    (loggers initial_world !! l = None -> l_handlers lo = []).
Proof.
  refine (get_logger_no_output "x" _ initial_world 10 initial_world_ok _ _ _ _);
    reflexivity.
Defined.

(** X11: With [mask_sensitive=False] no [RedactingFilter] is made, whatever
    [mask_sensitive_patterns] is: the filters of the logger are those it
    had, in their order, and behind them one new [DuplicateFilter] in its
    initial state; and a redacting filter found in the store after the call
    was there before.  (The filters that the loggers refer to are taken to
    exist.) *)
Theorem get_logger_no_mask (name : string) (a : args) (w : world) (n : Z) :
  world_ok w ->
  LOGGERS w !! name = None ->
  requested_level name (level a) w = Some n ->
  (forall path, truthy_filename (filename a) = Some path -> path ∈ writable w) ->
  mask_sensitive a = false ->
  (forall l lo k, loggers w !! l = Some lo -> k ∈ l_filters lo ->
                  is_Some (filters w !! k)) ->
  exists l w' lo f,
    get_logger name a w = (Return l, w') /\
    loggers w' !! l = Some lo /\
    filters w !! f = None /\
    filters w' !! f = Some (DuplicateFilterObj DuplicateFilter.new) /\
    l_filters lo
    = match loggers w !! l with
      | Some lo0 => l_filters lo0
      | None => []
      end ++ [f] /\
    (forall k st, filters w' !! k = Some (RedactingFilterObj st) ->
                  filters w !! k = Some (RedactingFilterObj st)).
Proof.
  intros Hok Hnone Hlevel Hfile Hmask Hrefs.
  destruct (getLogger_spec name w (proj2 (proj2 Hok))) as (l & w1 & Hget & _).
  destruct (get_logger_first_call name a w w1 l n Hok Hnone Hget Hlevel Hfile)
    as (w' & lo0 & lo & Hrun & Hlo0 & Hlo & Hothers & Hlv & Hprop & Hhs & Hfs
        & Hstore & Hfstore & _).
  rewrite Hmask in Hfs, Hfstore.
  set (f := if console a then S (S (next_loc w)) else next_loc w) in *.
  assert (filters w !! f = None) as Hfresh.
  { apply (world_ok_fresh w f Hok). subst f. destruct (console a); lia. }
  assert (match loggers w !! l with
          | Some lo1 => l_filters lo1
          | None => []
          end = l_filters lo0) as Hhad.
  { destruct (getLogger_logger name w w1 l lo0 Hget Hlo0) as [Hold|[Hnew ->]].
    - by rewrite Hold.
    - by rewrite Hnew. }
  assert (f ∉ l_filters lo0) as Hnotin.
  { intros Hin.
    destruct (getLogger_logger name w w1 l lo0 Hget Hlo0) as [Hold|[Hnew ->]].
    - destruct (Hrefs l lo0 f Hold Hin) as [x Hx].
      pose proof (eq_trans (eq_sym Hfresh) Hx) as Habs. discriminate Habs.
    - by apply elem_of_nil in Hin. }
  exists l, w', lo, f. do 3 (split; [done|]).
  split; [rewrite Hfstore; apply lookup_insert_eq|].
  split.
  - rewrite Hhad, Hfs. unfold add_once. by rewrite bool_decide_eq_false_2.
  - intros k st. rewrite Hfstore.
    destruct (decide (k = f)) as [->|Hk]; [by rewrite lookup_insert_eq|].
    rewrite lookup_insert_ne by done. destruct (console a); [|done].
    destruct (decide (k = S (next_loc w))) as [->|Hk'];
      [by rewrite lookup_insert_eq | by rewrite lookup_insert_ne].
Qed.

Lemma get_logger_no_mask_witness :
  exists l w' lo f,
    get_logger "x" (mkArgs (LevelInt 20) None true 1 1 false (Some ["secret"]))
               initial_world
    = (Return l, w') /\
    loggers w' !! l = Some lo /\
    filters initial_world !! f = None /\
    filters w' !! f = Some (DuplicateFilterObj DuplicateFilter.new) /\
    l_filters lo
    = match loggers initial_world !! l with
      | Some lo0 => l_filters lo0
      | None => []
      end ++ [f] /\
    (forall k st, filters w' !! k = Some (RedactingFilterObj st) ->
                  filters initial_world !! k = Some (RedactingFilterObj st)).
Proof.
  refine (get_logger_no_mask "x" _ initial_world 20 initial_world_ok _ _ _ _ _);
    try reflexivity.
  - intros path H. discriminate H.
  - intros l lo k Hl Hk. exfalso. revert Hl Hk. unfold initial_world, loggers.
    intros Hl Hk.
    destruct (decide (l = "root")) as [->|Hroot].
    + rewrite lookup_insert_eq in Hl. injection Hl as <-. by apply elem_of_nil in Hk.
    + rewrite lookup_insert_ne in Hl by done.
      destruct (decide (l = "simple_logger.logger")) as [->|Hl'].
      * rewrite lookup_singleton_eq in Hl. injection Hl as <-.
        by apply elem_of_nil in Hk.
      * by rewrite lookup_singleton_ne in Hl.
Defined.

(** X12: A first call changes nothing but what it makes: it adds one entry to
    [LOGGERS], under the name as given; the other loggers, and the handlers
    and filters that existed, are as they were. *)
Theorem get_logger_leaves_the_rest (name : string) (a : args) (w : world) (n : Z) :
  world_ok w ->
  LOGGERS w !! name = None ->
  requested_level name (level a) w = Some n ->
  (forall path, truthy_filename (filename a) = Some path -> path ∈ writable w) ->
  exists l w',
    get_logger name a w = (Return l, w') /\
    LOGGERS w' = <[name := l]> (LOGGERS w) /\
    (forall l', l' <> l -> loggers w' !! l' = loggers w !! l') /\
    (forall k o, handlers w !! k = Some o -> handlers w' !! k = Some o) /\
    (forall k o, filters w !! k = Some o -> filters w' !! k = Some o).
Proof.
  intros Hok Hnone Hlevel Hfile.
  destruct (getLogger_spec name w (proj2 (proj2 Hok))) as (l & w1 & Hget & _).
  destruct (get_logger_first_call name a w w1 l n Hok Hnone Hget Hlevel Hfile)
    as (w' & lo0 & lo & Hrun & Hlo0 & Hlo & Hothers & Hlv & Hprop & Hhs & Hfs
        & Hstore & Hfstore & Hnext & Htbl & Hw & HL).
  exists l, w'. do 2 (split; [done|]). split; [|split].
  - intros l' Hl'. rewrite (Hothers l' Hl'). exact (getLogger_frame name w w1 l Hget l' Hl').
  - intros k o Hk.
    assert (k < next_loc w)%nat by (apply (proj1 (proj2 Hok)); eauto).
    rewrite Hstore.
    destruct (truthy_filename (filename a)), (console a), (mask_sensitive a);
      cbv beta iota; by repeat (rewrite lookup_insert_ne by lia).
  - intros k o Hk.
    assert (k < next_loc w)%nat by (apply (proj1 Hok); eauto).
    rewrite Hfstore.
    destruct (console a), (mask_sensitive a);
      cbv beta iota; by repeat (rewrite lookup_insert_ne by lia).
Qed.

Lemma get_logger_leaves_the_rest_witness :
  exists l w',
    get_logger "" default_args initial_world = (Return l, w') /\
    LOGGERS w' = <["" := l]> (LOGGERS initial_world) /\
    (forall l', l' <> l -> loggers w' !! l' = loggers initial_world !! l') /\
    (forall k o, handlers initial_world !! k = Some o -> handlers w' !! k = Some o) /\
    (forall k o, filters initial_world !! k = Some o -> filters w' !! k = Some o).
Proof.
  refine (get_logger_leaves_the_rest "" _ initial_world 20 initial_world_ok _ _ _);
    try reflexivity.
  intros path H. discriminate H.
Defined.

Lemma getLogger_new (name : string) (w : world) :
  name <> "" -> name <> root_name -> loggers w !! name = None ->
  getLogger name w
  = (Return name,
     with_nameToLevel (<["HASH" := HASH]> (<["SUCCESS" := SUCCESS]> (nameToLevel w)))
       (with_loggers (<[name := mkLogger INFO [] [] true]> (loggers w)) w)).
Proof.
  intros H1 H2 Hnew. unfold getLogger.
  rewrite (bool_decide_eq_false_2 _ H1), (bool_decide_eq_false_2 _ H2). simpl.
  unfold mbind, M_bind, get_world. rewrite Hnew. reflexivity.
Qed.

(** X13: The names "SUCCESS" and "HASH" are good values of [level] for a
    logger that [logging] does not have yet, whatever the table of level
    names holds before the call: making the [SimpleLogger] puts them there
    before the level is set. *)
Theorem get_logger_own_level_names
        (name : string) (a : args) (w : world) (s : string) (n : Z) :
  world_ok w ->
  LOGGERS w !! name = None ->
  name <> "" -> name <> "root" -> loggers w !! name = None ->
  level a = LevelName s ->
  (s = "SUCCESS" /\ n = 32 \/ s = "HASH" /\ n = 33) ->
  (forall path, truthy_filename (filename a) = Some path -> path ∈ writable w) ->
  exists w' lo,
    get_logger name a w = (Return name, w') /\
    loggers w' !! name = Some lo /\ l_level lo = n.
Proof.
  intros Hok Hnone H1 H2 Hnew Hlv Hs Hfile.
  pose proof (getLogger_new name w H1 H2 Hnew) as Hget.
  destruct (get_logger_first_call name a w _ name n Hok Hnone Hget) as
    (w' & lo0 & lo & Hrun & Hlo0 & Hlo & _ & Hlevel & _); [|done|by eauto].
  unfold requested_level. rewrite Hget, Hlv. cbn [snd]. unfold with_nameToLevel.
  cbn [nameToLevel].
  destruct Hs as [[-> ->]|[-> ->]].
  - rewrite lookup_insert_ne by done. by rewrite lookup_insert_eq.
  - by rewrite lookup_insert_eq.
Qed.

Lemma get_logger_own_level_names_witness :
  exists w' lo,
    get_logger "x" (mkArgs (LevelName "SUCCESS") None true 1 1 false None)
               initial_world
    = (Return "x", w') /\
    loggers w' !! "x" = Some lo /\ l_level lo = 32.
Proof.
  refine (get_logger_own_level_names "x" _ initial_world "SUCCESS" 32
            initial_world_ok _ _ _ _ _ _ _); try done.
  - by left.
Defined.

Lemma getLogger_empty (w : world) : getLogger "" w = (Return "root", w).
Proof. reflexivity. Qed.

Lemma getLogger_root (w : world) : getLogger "root" w = (Return "root", w).
Proof. reflexivity. Qed.

(** A call with [console=True] on a logger that exists: the handlers it
    has stay, and a new stream handler comes behind them. *)
Lemma get_logger_adds_console
      (name : string) (a : args) (w w1 : world) (l : string)
      (lo0 : logger_obj) (n : Z) :
  world_ok w ->
  LOGGERS w !! name = None ->
  getLogger name w = (Return l, w1) ->
  loggers w !! l = Some lo0 ->
  requested_level name (level a) w = Some n ->
  (forall path, truthy_filename (filename a) = Some path -> path ∈ writable w) ->
  console a = true ->
  exists w' lo,
    get_logger name a w = (Return l, w') /\
    loggers w' !! l = Some lo /\ l_level lo = n /\
    (forall k, k ∈ l_handlers lo0 -> k ∈ l_handlers lo) /\
    next_loc w ∈ l_handlers lo /\
    handlers w' !! next_loc w
    = Some (mkHandler StreamHandler NOTSET (Some log_formatter) [S (next_loc w)]) /\
    (forall k o, handlers w !! k = Some o -> handlers w' !! k = Some o).
Proof.
  intros Hok Hnone Hget Hl Hlevel Hfile Hconsole.
  destruct (get_logger_first_call name a w w1 l n Hok Hnone Hget Hlevel Hfile)
    as (w' & lo1 & lo & Hrun & Hlo1 & Hlo & Hothers & Hlv & Hprop & Hhs & Hfs
        & Hstore & _).
  destruct (getLogger_logger name w w1 l lo1 Hget Hlo1) as [Hold|[Hnew _]];
    [|congruence].
  assert (lo1 = lo0) as -> by congruence.
  rewrite Hconsole in Hhs, Hstore.
  assert (forall k, k ∈ add_once (next_loc w) (l_handlers lo0) -> k ∈ l_handlers lo)
    as Hkeep.
  { intros k Hk. rewrite Hhs.
    destruct (truthy_filename (filename a)); [by apply elem_of_add_once_mono | done]. }
  exists w', lo. do 3 (split; [done|]).
  split; [intros k Hk; by apply Hkeep, elem_of_add_once_mono|].
  split; [apply Hkeep, elem_of_add_once|].
  split.
  - rewrite Hstore.
    destruct (truthy_filename (filename a)), (mask_sensitive a); cbv beta iota;
      repeat (rewrite lookup_insert_ne by lia); apply lookup_insert_eq.
  - intros k o Hk.
    assert (k < next_loc w)%nat by (apply (proj1 (proj2 Hok)); eauto).
    rewrite Hstore.
    destruct (truthy_filename (filename a)), (mask_sensitive a);
      cbv beta iota; by repeat (rewrite lookup_insert_ne by lia).
Qed.

(** X14: The empty name and ["root"] are two entries of [LOGGERS] for one
    logger, the root logger: a call under each of them, both with
    [console=True], leaves the root logger with two stream handlers, and
    with the level of the second call. *)
Theorem get_logger_empty_name_is_root (a a' : args) (w : world) (n n' : Z) :
  world_ok w ->
  LOGGERS w !! "" = None ->
  LOGGERS w !! "root" = None ->
  console a = true -> console a' = true ->
  requested_level "" (level a) w = Some n ->
  requested_level "root" (level a') w = Some n' ->
  (forall path, truthy_filename (filename a) = Some path -> path ∈ writable w) ->
  (forall path, truthy_filename (filename a') = Some path -> path ∈ writable w) ->
  exists w1 w2 lo h1 h2 ho1 ho2,
    get_logger "" a w = (Return "root", w1) /\
    get_logger "root" a' w1 = (Return "root", w2) /\
    loggers w2 !! "root" = Some lo /\ l_level lo = n' /\
    h1 <> h2 /\ h1 ∈ l_handlers lo /\ h2 ∈ l_handlers lo /\
    handlers w2 !! h1 = Some ho1 /\ h_kind ho1 = StreamHandler /\
    handlers w2 !! h2 = Some ho2 /\ h_kind ho2 = StreamHandler.
Proof.
  intros Hok Hnone Hnone' Hc Hc' Hlevel Hlevel' Hfile Hfile'.
  destruct (proj2 (proj2 Hok)) as [lo0 Hlo0].
  destruct (get_logger_adds_console "" a w w "root" lo0 n Hok Hnone
              (getLogger_empty w) Hlo0 Hlevel Hfile Hc)
    as (w1 & lo1 & Hrun1 & Hlo1 & _ & _ & Hh1 & Hstore1 & _).
  pose proof (get_logger_preserves_ok "" a w _ w1 Hok Hrun1) as Hok1.
  destruct (get_logger_first_call "" a w w "root" n Hok Hnone
              (getLogger_empty w) Hlevel Hfile)
    as (w1' & _ & _ & Hrun1' & _ & _ & _ & _ & _ & _ & _ & _ & _ & _
        & Htbl & Hw & HL).
  rewrite Hrun1 in Hrun1'. injection Hrun1' as <-.
  destruct (get_logger_adds_console "root" a' w1 w1 "root" lo1 n' Hok1)
    as (w2 & lo & Hrun2 & Hlo & Hlv & Hkeep & Hh2 & Hstore2 & Hold);
    [ by rewrite HL, lookup_insert_ne | apply getLogger_root | done | | | done | ].
  { unfold requested_level in *. destruct (level a'); [done|].
    rewrite getLogger_root in *. cbn [snd] in *. by rewrite Htbl. }
  { intros path Hp. rewrite Hw. by apply Hfile'. }
  eexists w1, w2, lo, (next_loc w), (next_loc w1), _, _.
  do 4 (split; [done|]).
  split.
  { intros E.
    pose proof (proj2 (world_ok_fresh w1 (next_loc w1) Hok1 (le_n _))) as Hfresh.
    rewrite <- E in Hfresh. discriminate (eq_trans (eq_sym Hfresh) Hstore1). }
  split; [by apply Hkeep|]. split; [done|].
  split; [by apply Hold|]. split; [done|]. by split.
Qed.

Lemma get_logger_empty_name_is_root_witness :
  exists w1 w2 lo h1 h2 ho1 ho2,
    get_logger "" default_args initial_world = (Return "root", w1) /\
    get_logger "root" default_args w1 = (Return "root", w2) /\
    loggers w2 !! "root" = Some lo /\ l_level lo = 20 /\
    h1 <> h2 /\ h1 ∈ l_handlers lo /\ h2 ∈ l_handlers lo /\
    handlers w2 !! h1 = Some ho1 /\ h_kind ho1 = StreamHandler /\
    handlers w2 !! h2 = Some ho2 /\ h_kind ho2 = StreamHandler.
Proof.
  refine (get_logger_empty_name_is_root default_args default_args initial_world
            20 20 initial_world_ok _ _ _ _ _ _ _ _); try reflexivity.
  - intros path H. discriminate H.
  - intros path H. discriminate H.
Defined.

(** What a call has done when [setLevel] raises. *)
Lemma get_logger_level_fails
      (name : string) (a : args) (w w1 : world) (l : string) :
  world_ok w ->
  LOGGERS w !! name = None ->
  getLogger name w = (Return l, w1) ->
  requested_level name (level a) w = None ->
  exists w' lo0,
    get_logger name a w = (Raise ValueError, w') /\
    loggers w1 !! l = Some lo0 /\
    LOGGERS w' = LOGGERS w /\ nameToLevel w' = nameToLevel w1 /\
    writable w' = writable w /\
    filters w'
    = (if console a
       then insert (S (next_loc w)) (DuplicateFilterObj DuplicateFilter.new)
       else fun m => m) (filters w) /\
    handlers w'
    = (if console a
       then insert (next_loc w)
                   (mkHandler StreamHandler NOTSET (Some log_formatter)
                              [S (next_loc w)])
       else fun m => m) (handlers w) /\
    loggers w'
    = (if console a
       then insert l (mkLogger (l_level lo0)
                               (add_once (next_loc w) (l_handlers lo0))
                               (l_filters lo0) (l_propagate lo0))
       else fun m => m) (loggers w1).
Proof.
  intros Hok Hnone Hget Hlevel.
  destruct (getLogger_spec name w (proj2 (proj2 Hok)))
    as (l' & w1' & Hget' & Hfs & Hhs & Hnext & HL & Hw & [lo0 Hlo0]).
  rewrite Hget in Hget'. injection Hget' as <- <-.
  unfold requested_level in Hlevel. rewrite Hget in Hlevel.
  destruct (level a) as [k|s] eqn:Hlv; [discriminate|]. cbn [snd] in Hlevel.
  unfold get_logger.
  rewrite (bind_step get_world _ w w w eq_refl), Hnone.
  rewrite (bind_step _ _ _ _ _ Hget). clear Hget Hnone Hok.
  destruct w as [fs0 hs0 ls0 nx0 tbl0 wr0 LG0].
  destruct w1 as [fs hs ls nx tbl wr LG].
  cbv beta iota delta [filters handlers loggers next_loc nameToLevel writable
      LOGGERS] in *.
  subst fs hs nx LG wr.
  unfold when, Logger_setLevel. rewrite Hlv.
  destruct (console a); repeat step I.
  all: erewrite bind_raise
    by (rewrite checkLevel_eq; norm; rewrite Hlevel; reflexivity).
  all: eexists _, lo0; split; [reflexivity|]; norm.
  all: split; [done|].
  all: do 5 (split; [rewrite ?alter_insert_eq; reflexivity|]).
  - by erewrite alter_alt_Some by exact Hlo0.
  - reflexivity.
Qed.

(** X15: An unknown level name makes the call raise [ValueError], and the
    logger is not put into [LOGGERS]; but with [console=True] the stream
    handler is on the logger by then, and it stays there. *)
Theorem get_logger_unknown_level (name : string) (a : args) (w : world) :
  world_ok w ->
  LOGGERS w !! name = None ->
  requested_level name (level a) w = None ->
  exists l w',
    fst (getLogger name w) = Return l /\
    get_logger name a w = (Raise ValueError, w') /\
    LOGGERS w' = LOGGERS w /\
    (console a = true ->
     exists lo ho,
       loggers w' !! l = Some lo /\ next_loc w ∈ l_handlers lo /\
       handlers w !! next_loc w = None /\
       handlers w' !! next_loc w = Some ho /\ h_kind ho = StreamHandler) /\
    (console a = false -> handlers w' = handlers w /\ filters w' = filters w).
Proof.
  intros Hok Hnone Hlevel.
  destruct (getLogger_spec name w (proj2 (proj2 Hok))) as (l & w1 & Hget & _).
  destruct (get_logger_level_fails name a w w1 l Hok Hnone Hget Hlevel)
    as (w' & lo0 & Hrun & Hlo0 & HL & _ & _ & Hfs & Hhs & Hls).
  exists l, w'. split; [by rewrite Hget|]. do 2 (split; [done|]). split.
  - intros Hc. rewrite Hc in Hhs, Hls. eexists _, _.
    split; [rewrite Hls; apply lookup_insert_eq|].
    split; [apply elem_of_add_once|].
    split; [by apply (world_ok_fresh w _ Hok)|].
    split; [rewrite Hhs; apply lookup_insert_eq | done].
  - intros Hc. rewrite Hc in Hhs, Hfs. done.
Qed.

Lemma get_logger_unknown_level_witness :
  exists l w',
    fst (getLogger "root" initial_world) = Return l /\
    get_logger "root" (mkArgs (LevelName "SUCCESS") None true 1 1 false None)
               initial_world
    = (Raise ValueError, w') /\
    LOGGERS w' = LOGGERS initial_world /\
    (true = true ->
     exists lo ho,
       loggers w' !! l = Some lo /\ next_loc initial_world ∈ l_handlers lo /\
       handlers initial_world !! next_loc initial_world = None /\
       handlers w' !! next_loc initial_world = Some ho /\
       h_kind ho = StreamHandler) /\
    (true = false ->
     handlers w' = handlers initial_world /\ filters w' = filters initial_world).
Proof.
  refine (get_logger_unknown_level "root" _ initial_world initial_world_ok _ _);
    reflexivity.
Defined.

(** X16: A call that raised on the level is not remembered, so the next call
    with the name configures the logger again: with [console=True] both
    times, the logger ends with two stream handlers. *)
Theorem get_logger_retry_adds_second_console
        (name : string) (a a' : args) (w : world) (n : Z) :
  world_ok w ->
  LOGGERS w !! name = None ->
  requested_level name (level a) w = None ->
  requested_level name (level a') w = Some n ->
  console a = true -> console a' = true ->
  (forall path, truthy_filename (filename a') = Some path -> path ∈ writable w) ->
  exists l w1 w2 lo h1 h2 ho1 ho2,
    get_logger name a w = (Raise ValueError, w1) /\
    get_logger name a' w1 = (Return l, w2) /\
    loggers w2 !! l = Some lo /\ l_level lo = n /\
    h1 <> h2 /\ h1 ∈ l_handlers lo /\ h2 ∈ l_handlers lo /\
    handlers w2 !! h1 = Some ho1 /\ h_kind ho1 = StreamHandler /\
    handlers w2 !! h2 = Some ho2 /\ h_kind ho2 = StreamHandler.
Proof.
  intros Hok Hnone Hlevel Hlevel' Hc Hc' Hfile.
  destruct (getLogger_spec name w (proj2 (proj2 Hok))) as (l & w0 & Hget & _).
  destruct (get_logger_level_fails name a w w0 l Hok Hnone Hget Hlevel)
    as (w1 & lo0 & Hrun1 & Hlo0 & HL & Htbl & Hw & Hfs & Hhs & Hls).
  rewrite Hc in Hfs, Hhs, Hls.
  pose proof (get_logger_preserves_ok name a w _ w1 Hok Hrun1) as Hok1.
  assert (getLogger name w1 = (Return l, w1)) as Hget1.
  { apply (getLogger_again name w w0); [done|].
    rewrite Hls, lookup_insert_eq. eauto. }
  destruct (get_logger_adds_console name a' w1 w1 l
              (mkLogger (l_level lo0) (add_once (next_loc w) (l_handlers lo0))
                        (l_filters lo0) (l_propagate lo0)) n Hok1)
    as (w2 & lo & Hrun2 & Hlo & Hlv & Hkeep & Hh2 & Hstore2 & Hold);
    [ by rewrite HL | done | by rewrite Hls, lookup_insert_eq | | | done | ].
  { unfold requested_level in *. destruct (level a'); [done|].
    rewrite Hget in Hlevel'. rewrite Hget1. cbn [snd] in *. by rewrite Htbl. }
  { intros path Hp. rewrite Hw. by apply Hfile. }
  eexists l, w1, w2, lo, (next_loc w), (next_loc w1), _, _.
  do 4 (split; [done|]).
  split.
  { intros E.
    pose proof (proj2 (world_ok_fresh w1 (next_loc w1) Hok1 (le_n _))) as Hfresh.
    rewrite <- E in Hfresh.
    assert (handlers w1 !! next_loc w = Some
              (mkHandler StreamHandler NOTSET (Some log_formatter) [S (next_loc w)]))
      as Hthere by (rewrite Hhs; apply lookup_insert_eq).
    discriminate (eq_trans (eq_sym Hfresh) Hthere). }
  split; [apply Hkeep, elem_of_add_once|]. split; [done|].
  split; [apply Hold; rewrite Hhs; apply lookup_insert_eq|].
  split; [done|]. by split.
Qed.

Lemma get_logger_retry_adds_second_console_witness :
  exists l w1 w2 lo h1 h2 ho1 ho2,
    get_logger "x" (mkArgs (LevelName "VERBOSE") None true 1 1 false None)
               initial_world
    = (Raise ValueError, w1) /\
    get_logger "x" default_args w1 = (Return l, w2) /\
    loggers w2 !! l = Some lo /\ l_level lo = 20 /\
    h1 <> h2 /\ h1 ∈ l_handlers lo /\ h2 ∈ l_handlers lo /\
    handlers w2 !! h1 = Some ho1 /\ h_kind ho1 = StreamHandler /\
    handlers w2 !! h2 = Some ho2 /\ h_kind ho2 = StreamHandler.
Proof.
  refine (get_logger_retry_adds_second_console "x" _ default_args initial_world 20
            initial_world_ok _ _ _ _ _ _); try reflexivity.
  intros path H. discriminate H.
Defined.



End FirstCallFacts.

(** ** [SimpleLogger.hash]: literals that do not occur, and hashing twice *)

Section HashMoreFacts.
Import Scan Str SimpleLogger.

Lemma replace_absent (msg h new : string) :
  h <> "" -> ~ occurs (text_of h) (text_of msg) -> Str.replace msg h new = msg.
Proof.
  intros Hh Hno. unfold Str.replace. rewrite replace_text_none; [|by destruct h|done].
  apply string_of_text_of.
Qed.

Lemma hash_msg_absent (msg : string) (hs : list string) :
  Forall (fun h => h <> "" /\ ~ occurs (text_of h) (text_of msg)) hs ->
  call_msg (hash msg (Some hs)) = msg.
Proof.
  induction 1 as [|h hs [Hh Hno] _ IH]; [done|].
  by rewrite hash_cons, replace_absent.
Qed.

(** X7: A message in which none of the listed literals occurs is logged as it
    is, at HASH. *)
Theorem hash_without_literals (msg : string) (to_hash : list string) :
  Forall (fun h => h <> "" /\ ~ occurs (text_of h) (text_of msg)) to_hash ->
  hash msg (Some to_hash) = mkCall 33 msg.
Proof.
  intros H. apply hash_msg_absent in H. unfold hash in *. simpl in *. by rewrite H.
Qed.

Lemma hash_without_literals_witness :
  hash "disk is full" (Some ["hunter2"; "s3cr3t"]) = mkCall 33 "disk is full".
Proof.
  apply (hash_without_literals "disk is full" ["hunter2"; "s3cr3t"]).
  repeat constructor; try discriminate; by apply not_occurs.
Defined.

(** X8: Masking is stable: the message that [hash] logs, given to [hash]
    again with the same literals (none of them empty or with an asterisk),
    is logged as it is. *)
Theorem hash_twice (msg : string) (to_hash : list string) :
  Forall maskable to_hash ->
  hash (call_msg (hash msg (Some to_hash))) (Some to_hash)
  = hash msg (Some to_hash).
Proof.
  intros Hmask.
  assert (call_msg (hash (call_msg (hash msg (Some to_hash))) (Some to_hash))
          = call_msg (hash msg (Some to_hash))) as H.
  { apply hash_msg_absent.
    pose proof (hash_clears to_hash Hmask msg) as Hclear.
    rewrite Forall_forall in *. intros h Hh. split; [|by apply Hclear].
    by destruct (Hmask h Hh). }
  unfold hash in *. simpl in *. by rewrite H.
Qed.

Lemma hash_twice_witness :
  hash (call_msg (hash "key=abc, again abc" (Some ["abc"; "key"]))) (Some ["abc"; "key"])
  = hash "key=abc, again abc" (Some ["abc"; "key"]).
Proof.
  apply (hash_twice "key=abc, again abc" ["abc"; "key"]).
  repeat constructor; try discriminate; simpl; intuition discriminate.
Defined.

End HashMoreFacts.
